(** * SPG-L1 solvers of cr-sparse ([cr/sparse/_src/cvx/spgl1.py])

    A shallow embedding of the l1-ball projector, the curvilinear line
    search and the LASSO / BPIC outer loops, followed by the properties
    proved about them.

    Numbers.  The program computes on floating-point arrays; here a scalar
    is an exact rational ([Q]) and an array is a [list Q].  Rounding and
    the IEEE special values are therefore not part of the model: every
    statement below is a statement about the algorithm in exact
    arithmetic.  Where the program divides by a quantity that can be
    zero, the model writes out what the program gets ([1/0] is [+inf],
    which [clip] brings down to its upper bound), or the statement assumes
    that the divisor is not zero (the Newton quotient of the BPIC solver,
    which is infinite or not a number otherwise).  The arrays are real:
    [jnp.conj] and [jnp.real] are the identity.  The Euclidean norm needs
    a square root, which [Q] does not have; it is a parameter ([sqrt]) of
    the development. *)

From Stdlib Require Import String.
From Stdlib Require Import QArith Qabs Qminmax Qreduction Qpower Lqa Lia ZArith.
From Stdlib Require Import Bool List Permutation Sorted.
Import ListNotations.

Local Open Scope Q_scope.

(** ** Scalars *)

(** [a < b] on arrays' elements, as a boolean. *)
Definition Qltb (a b : Q) : bool := negb (Qle_bool b a).

(** [jnp.clip(a, lo, hi)]: [minimum(maximum(a, lo), hi)]. *)
Definition clip (a lo hi : Q) : Q := Qmin (Qmax a lo) hi.

(** [jnp.clip(1. / d, lo, hi)] for a [d >= 0]: [1. / 0.] is [+inf], and
    [minimum(maximum(inf, lo), hi)] is [hi]. *)
Definition clip_inv (d lo hi : Q) : Q :=
  if Qeq_bool d 0 then hi else clip (1 / d) lo hi.

(** ** Arrays *)

Definition vec := list Q.

Fixpoint zip_with (f : Q -> Q -> Q) (x y : vec) : vec :=
  match x, y with
  | a :: x', b :: y' => f a b :: zip_with f x' y'
  | _, _ => []
  end.

Definition vadd : vec -> vec -> vec := zip_with Qplus.
Definition vsub : vec -> vec -> vec := zip_with Qminus.
Definition vmul : vec -> vec -> vec := zip_with Qmult.
Definition vscale (c : Q) (x : vec) : vec := map (Qmult c) x.
Definition vneg (x : vec) : vec := map Qopp x.
Definition vabs (x : vec) : vec := map Qabs x.

Fixpoint vsum (x : vec) : Q :=
  match x with
  | [] => 0
  | a :: x' => a + vsum x'
  end.

(** [jnp.dot] / [jnp.vdot] on real one-dimensional arrays. *)
Definition dot (x y : vec) : Q := vsum (vmul x y).

(** [jnp.max] of an array (of a non-empty one: the fold starts from the
    first element). *)
Definition vmax (x : vec) : Q :=
  match x with
  | [] => 0
  | a :: x' => fold_left Qmax x' a
  end.

(** [crn.arr_l1norm], [crn.norm_l1] and [crn.norm_linf] of cr.nimble. *)
Definition arr_l1norm (x : vec) : Q := vsum (vabs x).
Definition norm_l1 : vec -> Q := arr_l1norm.
Definition norm_linf (x : vec) : Q := vmax (vabs x).

(** [jnp.cumsum]. *)
Fixpoint cumsum_from (acc : Q) (x : vec) : vec :=
  match x with
  | [] => []
  | a :: x' => (acc + a) :: cumsum_from (acc + a) x'
  end.

Definition cumsum (x : vec) : vec := cumsum_from 0 x.

(** [jnp.arange(lo, lo + n)], as an array of scalars. *)
Fixpoint arange (lo : Z) (n : nat) : vec :=
  match n with
  | O => []
  | S n' => inject_Z lo :: arange (lo + 1) n'
  end.

(** [jnp.sort]: ascending order (insertion sort stands for the library's
    sort). *)
Fixpoint insert (a : Q) (l : vec) : vec :=
  match l with
  | [] => [a]
  | b :: l' => if Qle_bool a b then a :: l else b :: insert a l'
  end.

Fixpoint sort (l : vec) : vec :=
  match l with
  | [] => []
  | a :: l' => insert a (sort l')
  end.

(** [jnp.argmax] of a boolean array: the first index that holds [True],
    and 0 when none does. *)
Fixpoint first_true (flags : list bool) : option nat :=
  match flags with
  | [] => None
  | true :: _ => Some O
  | false :: flags' => option_map S (first_true flags')
  end.

Definition argmax (flags : list bool) : nat :=
  match first_true flags with
  | Some i => i
  | None => O
  end.

(** ** L1-ball projections *)

(** The elementwise [cu_diff > u_scaled]. *)
Fixpoint vgt (x y : vec) : list bool :=
  match x, y with
  | a :: x', b :: y' => Qltb b a :: vgt x' y'
  | _, _ => []
  end.

(** The local variables [flags], [K] and [kappa] of
    [_project_to_l1_ball], as functions of the sorted magnitudes [u] and
    the radius [q]. *)
Definition flags_of (u : vec) (q : Q) : list bool :=
  let cu := cumsum u in
  let cu_diff := map (fun c => c - q) cu in
  let u_scaled := vmul u (arange 1 (length u)) in
  vgt cu_diff u_scaled.

Definition K_of (u : vec) (q : Q) : nat :=
  let flags := flags_of u q in
  let K := argmax flags in
  if Nat.eqb K 0 then length flags else K.

Definition kappa_of (u : vec) (q : Q) : Q :=
  let cu := cumsum u in
  let K := K_of u q in
  (nth (K - 1) cu 0 - q) / inject_Z (Z.of_nat K).

(** [jnp.maximum(0, x - kappa) + jnp.minimum(0, x + kappa)]. *)
Definition shrink (kappa : Q) (x : vec) : vec :=
  map (fun xi => Qmax 0 (xi - kappa) + Qmin 0 (xi + kappa)) x.

Definition _project_to_l1_ball (x : vec) (q : Q) : vec :=
  let u := rev (sort (vabs x)) in
  let kappa := kappa_of u q in
  shrink kappa x.

Definition project_to_l1_ball (x : vec) (q : Q) : vec :=
  let invalid := Qltb q (arr_l1norm x) in
  if invalid then _project_to_l1_ball x q else x.

Definition project_to_l1_ball_at (x b : vec) (q : Q) : vec :=
  let r := vsub x b in
  let r := project_to_l1_ball r q in
  vadd r b.

(** ** Data types of the module *)

Record SPGL1Options := {
  bp_tol : Q;
  ls_tol : Q;
  opt_tol : Q;
  dec_tol : Q;
  gamma : Q;
  alpha_min : Q;
  alpha_max : Q;
  memory : Z;
  (** [None] is the default [jnp.inf]. *)
  max_matvec : option Z;
  max_iters : Z
}.

Definition default_options : SPGL1Options := {|
  bp_tol := 1 # 1000000;
  ls_tol := 1 # 1000000;
  opt_tol := 1 # 10000;
  dec_tol := 1 # 10000;
  gamma := 1 # 10000;
  alpha_min := 1 # 10000000000000000;
  alpha_max := 100000;
  memory := 10;
  max_matvec := None;
  max_iters := 100
|}.

(** The linear operator: its shape [(m, n)], [A.times] and [A.trans]. *)
Record LinearOperator := {
  shape : Z * Z;
  times : vec -> vec;
  trans : vec -> vec
}.

Module CurvyLineSearchState.
Record t := mk {
  alpha : Q;
  scale : Q;
  x_new : vec;
  r_new : vec;
  d_new : vec;
  gtd : Q;
  d_norm_old : Q;
  f_val : Q;
  f_lim : Q;
  n_iters : Z;
  n_safe : Z
}.
End CurvyLineSearchState.

Module SPGL1LassoState.
Record t := mk {
  x : vec;
  g : vec;
  r : vec;
  f_past : vec;
  r_norm : Q;
  r_gap : Q;
  alpha : Q;
  alpha_next : Q;
  iterations : Z;
  n_times : Z;
  n_trans : Z;
  n_newton : Z;
  n_ls_iters : Z
}.
End SPGL1LassoState.

Module SPGL1BPState.
Record t := mk {
  x : vec;
  g : vec;
  r : vec;
  f_past : vec;
  tau : Q;
  r_norm : Q;
  r_gap : Q;
  r_res_error : Q;
  r_f_error : Q;
  alpha : Q;
  alpha_next : Q;
  iterations : Z;
  n_times : Z;
  n_trans : Z;
  n_newton : Z;
  n_ls_iters : Z
}.
End SPGL1BPState.

Module LS := CurvyLineSearchState.
Module Lasso := SPGL1LassoState.
Module BP := SPGL1BPState.

(** ** Exceptions and the module namespace

    A function of the module that reads a name it neither receives nor
    binds finds it in the module's global namespace when it is called, and
    raises [NameError] when the name is not there. *)

Inductive pyval :=
| VNum (c : Q)
| VVec (v : vec).

Inductive exn :=
| NameError (name : string)
| TypeError.

Inductive res (X : Type) :=
| Ok (v : X)
| Raise (e : exn).

Arguments Ok {X} v.
Arguments Raise {X} e.

Definition bind {X Y : Type} (m : res X) (k : X -> res Y) : res Y :=
  match m with
  | Ok v => k v
  | Raise e => Raise e
  end.

Notation "x <- m ;; k" := (bind m (fun x => k))
  (at level 61, m at next level, right associativity).
Notation "' p <- m ;; k" := (bind m (fun p => k))
  (at level 61, p pattern, m at next level, right associativity).

Definition namespace := list (string * pyval).

Fixpoint lookup (name : string) (ge : namespace) : res pyval :=
  match ge with
  | [] => Raise (NameError name)
  | (n, v) :: ge' => if String.eqb n name then Ok v else lookup name ge'
  end.

(** The numeric names bound at the top level of [spgl1.py]: [EPS], the
    machine epsilon of float32, and nothing else. *)
Definition module_globals : namespace :=
  [("EPS"%string, VNum (1 # 8388608))].

(** [r - b] and [tau * g_dnorm] for a [b] and a [tau] found in the
    namespace. *)
Definition sub_val (r : vec) (b : pyval) : res vec :=
  match b with
  | VNum c => Ok (map (fun ri => ri - c) r)
  | VVec [c] => Ok (map (fun ri => ri - c) r)
  | VVec v =>
      if Nat.eqb (length v) (length r) then Ok (vsub r v)
      else match r with
           | [ri] => Ok (map (fun c => ri - c) v)
           | _ => Raise TypeError
           end
  end.

(** [jnp.dot] of two one-dimensional arrays: their lengths must agree. *)
Definition dot_val (x y : vec) : res Q :=
  if Nat.eqb (length x) (length y) then Ok (dot x y) else Raise TypeError.

Definition mul_val (tau : pyval) (c : Q) : res Q :=
  match tau with
  | VNum t => Ok (t * c)
  | VVec _ => Raise TypeError
  end.

(** ** Loops *)

(** [lax.while_loop(cond, body, s)] and Python's [while cond(s): s = body(s)],
    run for at most [fuel] iterations. *)
Fixpoint while_loop {S : Type} (fuel : nat) (cond : S -> bool) (body : S -> S)
  (s : S) : S :=
  match fuel with
  | O => s
  | Datatypes.S fuel' =>
      if cond s then while_loop fuel' cond body (body s) else s
  end.

Fixpoint while_loopM {S : Type} (fuel : nat) (cond : S -> bool)
  (body : S -> res S) (s : S) : res S :=
  match fuel with
  | O => Ok s
  | Datatypes.S fuel' =>
      if cond s then s' <- body s ;; while_loopM fuel' cond body s' else Ok s
  end.

(** ** The solvers

    [sqrt] is the square root behind [jax.numpy.linalg.norm] and
    [math.sqrt]; [cbuf_push_left] is cr.nimble's update of the buffer of
    past objective values. *)

Section Solvers.

Variable sqrt : Q -> Q.
Variable cbuf_push_left : vec -> Q -> vec.

Definition norm (x : vec) : Q := sqrt (dot x x).

Definition primal_norm : vec -> Q := norm_l1.
Definition dual_norm : vec -> Q := norm_linf.

Definition weighted_primal_l1_norm (x w : vec) : Q := norm_l1 (vmul x w).

Definition weighted_dual_linf_norm (x w : vec) : Q :=
  norm_linf (zip_with Qdiv x w).

Definition obj_val (r : vec) : Q := (1 # 2) * dot r r.

(** *** Curvilinear line search *)

Section CurvyLineSearch.

Variables (A : LinearOperator) (b x g : vec) (alpha0 f_max : Q).
Variables (proj : vec -> Q -> vec) (tau gamma : Q).

Definition ls_max_iters : Z := 10.
Definition ls_g_norm : Q := norm g / sqrt (inject_Z (snd (shape A))).

Definition candidate (alpha scale : Q) : vec * vec * vec * Q * Q * Q :=
  let x_new := proj (vsub x (vscale (alpha * scale) g)) tau in
  let r_new := vsub b (times A x_new) in
  let d_new := vsub x_new x in
  let gtd := scale * dot g d_new in
  let f_val := obj_val r_new in
  let f_lim := f_max + gamma * alpha * gtd in
  (x_new, r_new, d_new, gtd, f_val, f_lim).

Definition ls_init : LS.t :=
  let alpha := alpha0 in
  let scale := 1 in
  let '(x_new, r_new, d_new, gtd, f_val, f_lim) := candidate alpha scale in
  {| LS.alpha := alpha; LS.scale := scale;
     LS.x_new := x_new; LS.r_new := r_new; LS.d_new := d_new;
     LS.gtd := gtd; LS.d_norm_old := 0;
     LS.f_val := f_val; LS.f_lim := f_max;
     LS.n_iters := 1; LS.n_safe := 0 |}.

Definition ls_next_func (state : LS.t) : LS.t :=
  let alpha := LS.alpha state in
  let alpha := alpha / 2 in
  let d_norm := norm (LS.d_new state) in
  let d_norm_old := LS.d_norm_old state in
  let too_close := Qle_bool (Qabs (d_norm - d_norm_old)) ((1 # 1000000) * d_norm) in
  let scale := LS.scale state in
  let n_safe := LS.n_safe state in
  let '(scale, n_safe) :=
    if too_close
    then (d_norm / ls_g_norm / inject_Z (Z.shiftl 1 n_safe), (n_safe + 1)%Z)
    else (scale, n_safe) in
  let '(x_new, r_new, d_new, gtd, f_val, f_lim) := candidate alpha scale in
  {| LS.alpha := alpha; LS.scale := scale;
     LS.x_new := x_new; LS.r_new := r_new; LS.d_new := d_new;
     LS.gtd := gtd; LS.d_norm_old := d_norm;
     LS.f_val := f_val; LS.f_lim := f_lim;
     LS.n_iters := (LS.n_iters state + 1)%Z; LS.n_safe := n_safe |}.

Definition ls_cond_func (state : LS.t) : bool :=
  let a := Z.ltb (LS.n_iters state) ls_max_iters in
  let b := Qltb (LS.gtd state) 0 in
  let c := Qle_bool (LS.f_lim state) (LS.f_val state) in
  let a := andb a b in
  let a := andb a c in
  a.

(** The loop runs while [n_iters < 10] and [n_iters] starts at 1: ten
    iterations are more than it can take. *)
Definition curvy_line_search : LS.t :=
  let state := ls_init in
  while_loop (Z.to_nat ls_max_iters) ls_cond_func ls_next_func state.

End CurvyLineSearch.

(** *** SPG-L1 solver for the LASSO problem *)

(** [lasso_metrics] is a function of the module: its [b] and [tau] are
    not parameters, they are looked up in the namespace [ge] of the
    module. *)
Definition lasso_metrics (ge : namespace) (x g r : vec) (f : Q) : res (Q * Q) :=
  let g_dnorm := dual_norm g in
  let r_norm := norm r in
  b <- lookup "b" ge ;;
  r_minus_b <- sub_val r b ;;
  r_dot <- dot_val r r_minus_b ;;
  tau <- lookup "tau" ge ;;
  tau_g <- mul_val tau g_dnorm ;;
  let gap := r_dot + tau_g in
  let f_m := Qmax 1 f in
  let r_gap := Qabs gap / f_m in
  Ok (r_norm, r_gap).

Section SolveLasso.

Variables (ge : namespace).
Variables (A : LinearOperator) (b : vec) (tau : Q) (x0 : vec).
Variable options : SPGL1Options.

Definition lasso_init : res Lasso.t :=
  let x := x0 in
  let x := project_to_l1_ball x tau in
  let r := vsub b (times A x) in
  let g := vneg (trans A r) in
  let f := obj_val r in
  let f_past := repeat f (Z.to_nat (memory options)) in
  let d := vsub (project_to_l1_ball (vsub x g) tau) x in
  let d_norm := norm_linf d in
  let alpha := clip_inv d_norm (alpha_min options) (alpha_max options) in
  '(r_norm, r_gap) <- lasso_metrics ge x g r f ;;
  Ok {| Lasso.x := x; Lasso.g := g; Lasso.r := r;
        Lasso.f_past := f_past;
        Lasso.r_norm := r_norm; Lasso.r_gap := r_gap; Lasso.alpha := alpha;
        Lasso.alpha_next := alpha;
        Lasso.iterations := 1; Lasso.n_times := 2; Lasso.n_trans := 2;
        Lasso.n_newton := 0; Lasso.n_ls_iters := 0 |}.

Definition lasso_body_func (state : Lasso.t) : res Lasso.t :=
  let f_max := vmax (Lasso.f_past state) in
  let lsearch := curvy_line_search A b (Lasso.x state)
    (Lasso.g state) (Lasso.alpha_next state) f_max
    project_to_l1_ball tau (gamma options) in
  let x := LS.x_new lsearch in
  let r := LS.r_new lsearch in
  let g := vneg (trans A r) in
  let f := LS.f_val lsearch in
  let f_past := cbuf_push_left (Lasso.f_past state) f in
  '(r_norm, r_gap) <- lasso_metrics ge x g r f ;;
  let s := vsub x (Lasso.x state) in
  let y := vsub g (Lasso.g state) in
  let sts := dot s s in
  let sty := dot s y in
  let alpha_next :=
    if Qle_bool sty 0 then alpha_max options
    else clip (sts / sty) (alpha_min options) (alpha_max options) in
  Ok {| Lasso.x := x; Lasso.g := g; Lasso.r := r;
        Lasso.f_past := f_past;
        Lasso.r_norm := r_norm; Lasso.r_gap := r_gap;
        Lasso.alpha := LS.alpha lsearch;
        Lasso.alpha_next := alpha_next;
        Lasso.iterations := (Lasso.iterations state + 1)%Z;
        Lasso.n_times := 2; Lasso.n_trans := 2;
        Lasso.n_newton := Lasso.n_newton state;
        Lasso.n_ls_iters := LS.n_iters lsearch |}.

Definition lasso_cond_func (state : Lasso.t) : bool :=
  let b_norm := norm b in
  let a := Z.ltb (Lasso.iterations state) (max_iters options) in
  let b := Qltb (opt_tol options) (Lasso.r_gap state) in
  let c := Qle_bool (opt_tol options * b_norm) (Lasso.r_norm state) in
  let a := andb a b in
  let a := andb a c in
  a.

(** [iterations] starts at 1 and the loop runs while it is below
    [max_iters]: [max_iters] iterations are more than it can take. *)
Definition solve_lasso_from : res Lasso.t :=
  state <- lasso_init ;;
  while_loopM (Z.to_nat (max_iters options)) lasso_cond_func lasso_body_func state.

(** The states the loop goes through: the initial one, and the one the
    body makes of a state that passes the loop test. *)
Inductive lasso_reachable : Lasso.t -> Prop :=
| lasso_reach_init (st : Lasso.t) :
    lasso_init = Ok st -> lasso_reachable st
| lasso_reach_step (st st' : Lasso.t) :
    lasso_reachable st -> lasso_cond_func st = true ->
    lasso_body_func st = Ok st' -> lasso_reachable st'.

End SolveLasso.

Definition solve_lasso (ge : namespace) (A : LinearOperator) (b : vec) (tau : Q)
  (options : SPGL1Options) : res Lasso.t :=
  let x0 := repeat 0 (Z.to_nat (snd (shape A))) in
  solve_lasso_from ge A b tau x0 options.

(** *** SPG-L1 solver for the BPIC problem *)

Definition bpic_metrics (b x g r : vec) (f sigma tau : Q) : Q * Q * Q * Q * Q :=
  let g_dnorm := dual_norm g in
  let r_norm := norm r in
  let gap := dot r (vsub r b) + tau * g_dnorm in
  let f_m := Qmax 1 f in
  let r_m := Qmax 1 r_norm in
  let r_gap := Qabs gap / f_m in
  let res_error := r_norm - sigma in
  let f_error := f - sigma * sigma / 2 in
  let r_res_error := Qabs res_error / r_m in
  let r_f_error := Qabs f_error / f_m in
  (g_dnorm, r_norm, r_gap, r_res_error, r_f_error).

Definition tau_change (A : LinearOperator) (r : vec) (r_norm sigma : Q) : Q :=
  let y := map (fun ri => ri / r_norm) r in
  let lambda_ := norm_linf (trans A y) in
  let phi := r_norm in
  let phi_d := - lambda_ in
  let change := (sigma - phi) / phi_d in
  change.

Definition compute_rgf (A : LinearOperator) (b x : vec) : vec * vec * Q :=
  let r := vsub b (times A x) in
  let g := vneg (trans A r) in
  let f := obj_val r in
  (r, g, f).

Definition update_xrgf (A : LinearOperator) (b x : vec) (tau : Q)
  : vec * vec * vec * Q :=
  let x := project_to_l1_ball x tau in
  let r := vsub b (times A x) in
  let g := vneg (trans A r) in
  let f := obj_val r in
  (x, r, g, f).

Section SolveBpic.

Variables (A : LinearOperator) (b : vec) (sigma : Q) (x0 : vec).
Variable options : SPGL1Options.

(** The Newton quotient [r_norm (r_norm - sigma) / g_dnorm] of [init] and
    of [body_func] is a number when [g_dnorm] is not zero; with
    [g_dnorm = 0] the program gets an infinity or a NaN, which the
    rationals do not have: what these definitions give there is not the
    value of the program, and the statements on [tau] assume a divisor
    that is not zero ([bpic_reachable_defined] below). *)
Definition bpic_init : BP.t :=
  let x := x0 in
  let tau := norm_l1 x in
  let '(x, r, g, f) := update_xrgf A b x tau in
  let '(g_dnorm, r_norm, r_gap, r_res_error, r_f_error) :=
    bpic_metrics b x g r f sigma tau in
  let tau := Qmax 0 (tau + (r_norm * (r_norm - sigma)) / g_dnorm) in
  let '(x, r, g, f) := update_xrgf A b x tau in
  let '(g_dnorm, r_norm, r_gap, r_res_error, r_f_error) :=
    bpic_metrics b x g r f sigma tau in
  let d := vsub (project_to_l1_ball (vsub x g) tau) x in
  let d_norm := norm_linf d in
  let alpha := clip_inv d_norm (alpha_min options) (alpha_max options) in
  let f_past := repeat f (Z.to_nat (memory options)) in
  {| BP.x := x; BP.g := g; BP.r := r;
     BP.f_past := f_past;
     BP.tau := tau;
     BP.r_norm := r_norm; BP.r_gap := r_gap;
     BP.r_res_error := r_res_error; BP.r_f_error := r_f_error;
     BP.alpha := alpha;
     BP.alpha_next := alpha;
     BP.iterations := 1; BP.n_times := 2; BP.n_trans := 2;
     BP.n_newton := 0; BP.n_ls_iters := 0 |}.

Definition bpic_body_func (state : BP.t) : BP.t :=
  let f_max := vmax (BP.f_past state) in
  let lsearch := curvy_line_search A b (BP.x state)
    (BP.g state) (BP.alpha_next state) f_max
    project_to_l1_ball (BP.tau state)
    (gamma options) in
  let x := LS.x_new lsearch in
  let r := LS.r_new lsearch in
  let g := vneg (trans A r) in
  let f := LS.f_val lsearch in
  let '(g_dnorm, r_norm, r_gap, r_res_error, r_f_error) :=
    bpic_metrics b x g r f sigma (BP.tau state) in
  let f_change := Qabs (f - nth 0 (BP.f_past state) 0) in
  let flag_c :=
    orb
      (andb (Qle_bool f_change (dec_tol options * f))
            (Qltb (2 * sigma) r_norm))
      (andb (Qle_bool f_change ((1 # 10) * f * Qabs (r_norm - sigma)))
            (Qle_bool r_norm (2 * sigma))) in
  let tau :=
    if flag_c
    then Qmax 0 (BP.tau state + (r_norm * (r_norm - sigma)) / g_dnorm)
    else BP.tau state in
  let '(x, r, g, f) :=
    if Qltb tau (BP.tau state)
    then update_xrgf A b x tau
    else (x, r, g, f) in
  let f_past := cbuf_push_left (BP.f_past state) f in
  let s := vsub x (BP.x state) in
  let y := vsub g (BP.g state) in
  let sts := dot s s in
  let sty := dot s y in
  let alpha_next :=
    if Qle_bool sty 0 then alpha_max options
    else clip (sts / sty) (alpha_min options) (alpha_max options) in
  {| BP.x := x; BP.g := g; BP.r := r;
     BP.f_past := f_past;
     BP.tau := tau;
     BP.r_norm := r_norm; BP.r_gap := r_gap;
     BP.r_res_error := r_res_error; BP.r_f_error := r_f_error;
     BP.alpha := LS.alpha lsearch;
     BP.alpha_next := alpha_next;
     BP.iterations := (BP.iterations state + 1)%Z;
     BP.n_times := 2; BP.n_trans := 2;
     BP.n_newton := BP.n_newton state;
     BP.n_ls_iters := LS.n_iters lsearch |}.

Definition bpic_cond_func (state : BP.t) : bool :=
  let b_norm := norm b in
  let a := Qltb (Qmax (opt_tol options) (BP.r_f_error state)) (BP.r_gap state) in
  let b := Qltb (opt_tol options) (BP.r_res_error state) in
  let u := Qltb sigma (BP.r_norm state) in
  let v := Qltb (opt_tol options) (BP.r_res_error state) in
  let w := Qltb (bp_tol options * b_norm) (BP.r_norm state) in
  let x := andb u (andb v w) in
  let cont := orb (andb a b) x in
  let cont := andb cont (Z.ltb (BP.iterations state) (max_iters options)) in
  cont.

(** As for the LASSO loop, [max_iters] iterations are more than the loop
    can take. *)
Definition solve_bpic_from : BP.t :=
  let state := bpic_init in
  while_loop (Z.to_nat (max_iters options)) bpic_cond_func bpic_body_func state.

Inductive bpic_reachable : BP.t -> Prop :=
| bpic_reach_init : bpic_reachable bpic_init
| bpic_reach_step (st : BP.t) :
    bpic_reachable st -> bpic_cond_func st = true ->
    bpic_reachable (bpic_body_func st).

(** The divisor [g_dnorm] of the Newton quotient in [init], and the local
    variables [g_dnorm] and [flag_c] of [body_func] as functions of the
    state it is given. *)
Definition bpic_init_g_dnorm : Q :=
  let x := x0 in
  let tau := norm_l1 x in
  let '(x, r, g, f) := update_xrgf A b x tau in
  let '(g_dnorm, r_norm, r_gap, r_res_error, r_f_error) :=
    bpic_metrics b x g r f sigma tau in
  g_dnorm.

Definition bpic_body_g_dnorm (state : BP.t) : Q :=
  let f_max := vmax (BP.f_past state) in
  let lsearch := curvy_line_search A b (BP.x state)
    (BP.g state) (BP.alpha_next state) f_max
    project_to_l1_ball (BP.tau state)
    (gamma options) in
  let x := LS.x_new lsearch in
  let r := LS.r_new lsearch in
  let g := vneg (trans A r) in
  let f := LS.f_val lsearch in
  let '(g_dnorm, r_norm, r_gap, r_res_error, r_f_error) :=
    bpic_metrics b x g r f sigma (BP.tau state) in
  g_dnorm.

Definition bpic_flag_c (state : BP.t) : bool :=
  let f_max := vmax (BP.f_past state) in
  let lsearch := curvy_line_search A b (BP.x state)
    (BP.g state) (BP.alpha_next state) f_max
    project_to_l1_ball (BP.tau state)
    (gamma options) in
  let x := LS.x_new lsearch in
  let r := LS.r_new lsearch in
  let g := vneg (trans A r) in
  let f := LS.f_val lsearch in
  let '(g_dnorm, r_norm, r_gap, r_res_error, r_f_error) :=
    bpic_metrics b x g r f sigma (BP.tau state) in
  let f_change := Qabs (f - nth 0 (BP.f_past state) 0) in
  orb
    (andb (Qle_bool f_change (dec_tol options * f))
          (Qltb (2 * sigma) r_norm))
    (andb (Qle_bool f_change ((1 # 10) * f * Qabs (r_norm - sigma)))
          (Qle_bool r_norm (2 * sigma))).

(** The Newton quotient that [body_func] evaluates on a state, if it
    evaluates one, has a divisor that is not zero. *)
Definition bpic_step_defined (state : BP.t) : Prop :=
  bpic_flag_c state = true -> ~ bpic_body_g_dnorm state == 0.

(** The states of a run on which every Newton quotient that is evaluated
    has a divisor that is not zero, so that [tau] is a number
    throughout. *)
Inductive bpic_reachable_defined : BP.t -> Prop :=
| bpic_defined_init :
    ~ bpic_init_g_dnorm == 0 -> bpic_reachable_defined bpic_init
| bpic_defined_step (st : BP.t) :
    bpic_reachable_defined st -> bpic_cond_func st = true ->
    bpic_step_defined st ->
    bpic_reachable_defined (bpic_body_func st).

End SolveBpic.

Definition solve_bpic (A : LinearOperator) (b : vec) (sigma : Q)
  (options : SPGL1Options) : BP.t :=
  let x0 := repeat 0 (Z.to_nat (snd (shape A))) in
  solve_bpic_from A b sigma x0 options.

End Solvers.

(** The options with another [max_matvec]. *)
Definition with_max_matvec (mm : option Z) (o : SPGL1Options) : SPGL1Options :=
  {| bp_tol := bp_tol o; ls_tol := ls_tol o; opt_tol := opt_tol o;
     dec_tol := dec_tol o; gamma := gamma o;
     alpha_min := alpha_min o; alpha_max := alpha_max o;
     memory := memory o; max_matvec := mm; max_iters := max_iters o |}.

(** ** A concrete runtime and a one-dimensional problem *)

(** A square root that is exact on the squares of rationals (and rounds
    numerator and denominator down elsewhere). *)
Definition Qsqrt (a : Q) : Q :=
  let a := Qred a in
  Z.sqrt (Qnum a) # Pos.sqrt (Qden a).

(** cr.nimble's buffer update: the new value goes in front and the
    last one is dropped. *)
Definition push_left (buf : vec) (val : Q) : vec :=
  match buf with
  | [] => []
  | _ :: _ => val :: removelast buf
  end.

(** The 1x1 identity operator. *)
Definition A1 : LinearOperator :=
  {| shape := (1%Z, 1%Z); times := fun v => v; trans := fun v => v |}.

(** A namespace in which [b] and [tau] are bound, as a caller that
    assigns them into the module would leave it. *)
Definition ge1 : namespace :=
  [("b"%string, VVec [1]); ("tau"%string, VNum 1)].

Definition from_res {X : Type} (d : X) (m : res X) : X :=
  match m with
  | Ok v => v
  | Raise _ => d
  end.

Definition lasso_zero : Lasso.t :=
  {| Lasso.x := []; Lasso.g := []; Lasso.r := []; Lasso.f_past := [];
     Lasso.r_norm := 0; Lasso.r_gap := 0; Lasso.alpha := 0;
     Lasso.alpha_next := 0; Lasso.iterations := 0; Lasso.n_times := 0;
     Lasso.n_trans := 0; Lasso.n_newton := 0; Lasso.n_ls_iters := 0 |}.

(** The LASSO problem [A = 1], [b = 1], [tau = 1] from [x0 = 0], run in
    [ge1]: its initial state, the state after one iteration, and the
    state it returns. *)
Definition lasso_st0 : Lasso.t :=
  from_res lasso_zero (lasso_init Qsqrt ge1 A1 [1] 1 [0] default_options).

Definition lasso_st1 : Lasso.t :=
  from_res lasso_zero
    (lasso_body_func Qsqrt push_left ge1 A1 [1] 1 default_options lasso_st0).

Definition lasso_final : Lasso.t :=
  from_res lasso_zero
    (solve_lasso_from Qsqrt push_left ge1 A1 [1] 1 [0] default_options).

(** The line search from [x = 0] with the gradient [g = -1] of the
    problem [A = 1], [b = 1], where [f(x) = 1/2]: a step just below 2
    inside a ball of radius 10, and the largest step [alpha_max] inside a
    ball of radius [10^5]. *)
Definition search_short : LS.t :=
  curvy_line_search Qsqrt A1 [1] [0] [-1] (19999 # 10000) (1 # 2)
    project_to_l1_ball 10 (1 # 10000).

Definition search_long : LS.t :=
  curvy_line_search Qsqrt A1 [1] [0] [-1] 100000 (1 # 2)
    project_to_l1_ball 100000 (1 # 10000).

(** The same search from the step 512 inside a ball of radius 1000: the
    tenth candidate, with step 1, is the minimiser. *)
Definition search_cap : LS.t :=
  curvy_line_search Qsqrt A1 [1] [0] [-1] 512 (1 # 2)
    project_to_l1_ball 1000 (1 # 10000).

(** The same search with a negative [gamma], from the step 4 inside a
    ball of radius 10. *)
Definition search_neg_gamma : LS.t :=
  curvy_line_search Qsqrt A1 [1] [0] [-1] 4 (1 # 2)
    project_to_l1_ball 10 (- (1)).

(** A search with a negative step: from [x = 5], outside the ball of
    radius 1, with the gradient [g = 4] of that point and [f_max = 0]. *)
Definition search_neg_alpha : LS.t :=
  curvy_line_search Qsqrt A1 [1] [5] [4] (- (1)) 0
    project_to_l1_ball 1 (1 # 10000).


(** The initial LASSO state for [A = 1], [b = 1], [x0 = 3] and the
    radius [tau = 0], run in [ge1]. *)
Definition lasso_st_zero : Lasso.t :=
  from_res lasso_zero (lasso_init Qsqrt ge1 A1 [1] 0 [3] default_options).

(** Options whose step bounds are both negative. *)
Definition negative_step_options : SPGL1Options :=
  {| bp_tol := 1 # 1000000; ls_tol := 1 # 1000000; opt_tol := 1 # 10000;
     dec_tol := 1 # 10000; gamma := 1 # 10000;
     alpha_min := -2; alpha_max := -1;
     memory := 10; max_matvec := None; max_iters := 100 |}.

(** ** Wavelet filter banks ([cr/sparse/_src/wt/wavelet.py]) *)

(** [g.at[0::2].set(-g[0::2])] and [g.at[1::2].set(-g[1::2])]. *)
Fixpoint negate_evens (g : vec) : vec :=
  match g with
  | [] => []
  | a :: g' => - a :: negate_odds g'
  end
with negate_odds (g : vec) : vec :=
  match g with
  | [] => []
  | a :: g' => a :: negate_evens g'
  end.

Definition qmf (h : vec) : vec :=
  let g := rev h in
  let g := negate_odds g in
  g.

Definition filter_bank_ (rec_lo : vec) : vec * vec * vec * vec :=
  let dec_lo := rev rec_lo in
  let rec_hi := qmf rec_lo in
  let dec_hi := rev rec_hi in
  (dec_lo, dec_hi, rec_lo, rec_hi).

(** [jnp.arange(lo, lo + n)] of integers. *)
Fixpoint int_arange (lo : Z) (n : nat) : list Z :=
  match n with
  | O => []
  | S n' => lo :: int_arange (lo + 1) n'
  end.

Definition mirror (h : vec) : vec :=
  let n := length h in
  let modulation := map (fun k => (-1) ^ k) (int_arange 1 n) in
  vmul modulation h.

Inductive wt_error :=
| ValueError (msg : string).

(** [sqrt2] is the constant of [coeffs.py]. *)
Definition orthogonal_filter_bank (sqrt2 : Q) (scaling_filter : vec)
  : wt_error + vec * vec * vec * vec :=
  if negb (Nat.eqb (Nat.modulo (length scaling_filter) 2) 0)
  then inl (ValueError "scaling_filter must be of even length.")
  else
    let total := vsum scaling_filter in
    let rec_lo := map (fun c => sqrt2 * c / total) scaling_filter in
    let dec_lo := rev rec_lo in
    let rec_hi := qmf rec_lo in
    let dec_hi := rev rec_hi in
    inr (dec_lo, dec_hi, rec_lo, rec_hi).

(** Squared Euclidean distance between two arrays of the same length. *)
Definition sqdist (x z : vec) : Q := dot (vsub x z) (vsub x z).

(** Sum of the positive parts of [a - kappa], over the entries [a]. *)
Definition pos_sum (kappa : Q) (u : vec) : Q :=
  vsum (map (fun a => Qmax 0 (a - kappa)) u).

(** [flags] for a scan that starts with the running sum [acc] and the
    count [lo]. *)
Definition flags_from (q acc : Q) (lo : Z) (u : vec) : list bool :=
  vgt (map (fun c => c - q) (cumsum_from acc u))
      (vmul u (arange lo (length u))).

(** Every entry of the array is zero. *)
Definition all_zero (p : vec) : bool := forallb (fun a => Qeq_bool a 0) p.

(** Descending order. *)
Definition desc (u : vec) : Prop := StronglySorted (fun a b => b <= a) u.

(** * Properties *)

(** ** Scalars *)

Lemma Qltb_true (a b : Q) : Qltb a b = true <-> a < b.
Proof.
  unfold Qltb. rewrite negb_true_iff, <- not_true_iff_false, Qle_bool_iff.
  split; intro H; [apply Qnot_le_lt | apply Qlt_not_le]; exact H.
Qed.

Lemma Qltb_false (a b : Q) : Qltb a b = false <-> b <= a.
Proof.
  unfold Qltb. rewrite negb_false_iff. apply Qle_bool_iff.
Qed.

Lemma Qle_bool_false (a b : Q) : Qle_bool a b = false <-> b < a.
Proof.
  rewrite <- not_true_iff_false, Qle_bool_iff.
  split; intro H; [apply Qnot_le_lt | apply Qlt_not_le]; exact H.
Qed.

Lemma Qmax_cases (a b : Q) :
  (a < b /\ Qmax a b = b) \/ (b <= a /\ Qmax a b = a).
Proof.
  unfold Qmax, GenericMinMax.gmax.
  destruct (a ?= b) eqn:E.
  - right. split; [| reflexivity]. apply Qeq_alt in E. lra.
  - left. split; [| reflexivity]. apply Qlt_alt. exact E.
  - right. split; [| reflexivity]. apply Qgt_alt in E. lra.
Qed.

Lemma Qmin_cases (a b : Q) :
  (a <= b /\ Qmin a b = a) \/ (b < a /\ Qmin a b = b).
Proof.
  unfold Qmin, GenericMinMax.gmin.
  destruct (a ?= b) eqn:E.
  - left. split; [| reflexivity]. apply Qeq_alt in E. lra.
  - left. split; [| reflexivity]. apply Qlt_alt in E. lra.
  - right. split; [| reflexivity]. apply Qgt_alt in E. exact E.
Qed.

Lemma Qabs_cases (a : Q) :
  (0 <= a /\ Qabs a = a) \/ (a < 0 /\ Qabs a = - a).
Proof.
  destruct a as [n d]. unfold Qabs, Qopp, Qle, Qlt. simpl.
  destruct (Z_lt_le_dec n 0) as [H | H].
  - right. split; [lia |]. f_equal. lia.
  - left. split; [lia |]. f_equal. lia.
Qed.

(** Case analysis on every [Qmax], [Qmin] and [Qabs] in sight; [lra] or
    [nra] then closes the cases. *)
Ltac split_one lem :=
  let E := fresh "E" in
  destruct lem as [[? E] | [? E]]; rewrite E in *; clear E.

Ltac split_minmax :=
  repeat match goal with
  | |- context [Qmax ?a ?b] => split_one (Qmax_cases a b)
  | |- context [Qmin ?a ?b] => split_one (Qmin_cases a b)
  | |- context [Qabs ?a] => split_one (Qabs_cases a)
  | _ : context [Qmax ?a ?b] |- _ => split_one (Qmax_cases a b)
  | _ : context [Qmin ?a ?b] |- _ => split_one (Qmin_cases a b)
  | _ : context [Qabs ?a] |- _ => split_one (Qabs_cases a)
  end.

Lemma clip_bounds (a lo hi : Q) :
  lo <= hi -> lo <= clip a lo hi /\ clip a lo hi <= hi.
Proof. intro H. unfold clip. split; split_minmax; lra. Qed.

Lemma clip_inv_bounds (d lo hi : Q) :
  lo <= hi -> lo <= clip_inv d lo hi /\ clip_inv d lo hi <= hi.
Proof.
  intro H. unfold clip_inv. destruct (Qeq_bool d 0).
  - split; lra.
  - apply clip_bounds, H.
Qed.

Lemma shrink1_abs (kappa a : Q) :
  0 <= kappa ->
  Qabs (Qmax 0 (a - kappa) + Qmin 0 (a + kappa)) == Qmax 0 (Qabs a - kappa).
Proof. intro H. split_minmax; lra. Qed.

Lemma Qsq_nonneg (a : Q) : 0 <= a * a.
Proof.
  destruct (Qlt_le_dec a 0) as [H | H].
  - setoid_replace (a * a) with ((- a) * (- a)) by ring.
    apply Qmult_le_0_compat; lra.
  - apply Qmult_le_0_compat; exact H.
Qed.

Lemma shrink1_nearest (kappa a c : Q) :
  0 <= kappa ->
  let p := Qmax 0 (a - kappa) + Qmin 0 (a + kappa) in
  2 * kappa * (Qabs p - Qabs c) <= (a - c) * (a - c) - (a - p) * (a - p).
Proof.
  intros H p. subst p.
  pose proof (Qsq_nonneg (a - c - kappa)).
  pose proof (Qsq_nonneg (a - c + kappa)).
  split_minmax; nra.
Qed.

(** ** Sums *)

Lemma vsum_app (l1 l2 : vec) : vsum (l1 ++ l2) == vsum l1 + vsum l2.
Proof.
  induction l1 as [| a l1 IH]; simpl; [lra | rewrite IH; lra].
Qed.

Lemma vsum_perm (l1 l2 : vec) : Permutation l1 l2 -> vsum l1 == vsum l2.
Proof.
  induction 1; simpl; lra.
Qed.

Lemma vsum_rev (l : vec) : vsum (rev l) == vsum l.
Proof. apply vsum_perm, Permutation_sym, Permutation_rev. Qed.

Lemma vsum_nonneg (l : vec) : Forall (fun a => 0 <= a) l -> 0 <= vsum l.
Proof.
  induction 1; simpl; lra.
Qed.

Lemma vabs_nonneg (x : vec) : Forall (fun a => 0 <= a) (vabs x).
Proof.
  induction x as [| a x IH]; constructor; [apply Qabs_nonneg | exact IH].
Qed.

Lemma arr_l1norm_nonneg (x : vec) : 0 <= arr_l1norm x.
Proof. apply vsum_nonneg, vabs_nonneg. Qed.

Lemma pos_sum_app (kappa : Q) (l1 l2 : vec) :
  pos_sum kappa (l1 ++ l2) == pos_sum kappa l1 + pos_sum kappa l2.
Proof. unfold pos_sum. rewrite map_app. apply vsum_app. Qed.

Lemma pos_sum_above (kappa : Q) (l : vec) :
  Forall (fun a => kappa <= a) l ->
  pos_sum kappa l == vsum l - inject_Z (Z.of_nat (length l)) * kappa.
Proof.
  unfold pos_sum. induction 1 as [| a l Ha _ IH].
  - cbn [map vsum length]. change (inject_Z (Z.of_nat 0)) with 0. lra.
  - cbn [map vsum length]. rewrite IH, Nat2Z.inj_succ.
    unfold Z.succ. rewrite inject_Z_plus. change (inject_Z 1) with 1.
    split_minmax; lra.
Qed.

Lemma pos_sum_below (kappa : Q) (l : vec) :
  Forall (fun a => a <= kappa) l -> pos_sum kappa l == 0.
Proof.
  unfold pos_sum. induction 1 as [| a l Ha _ IH].
  - reflexivity.
  - cbn [map vsum]. rewrite IH. split_minmax; lra.
Qed.

Lemma pos_sum_perm (kappa : Q) (l1 l2 : vec) :
  Permutation l1 l2 -> pos_sum kappa l1 == pos_sum kappa l2.
Proof. intro H. apply vsum_perm, Permutation_map, H. Qed.

(** The l1 norm of the shrunk array is the sum of the positive parts of
    the magnitudes. *)
Lemma arr_l1norm_shrink (kappa : Q) (x : vec) :
  0 <= kappa -> arr_l1norm (shrink kappa x) == pos_sum kappa (vabs x).
Proof.
  intro H. unfold arr_l1norm, pos_sum, shrink, vabs.
  induction x as [| a x IH]; [reflexivity |].
  cbn [map vsum]. rewrite IH, (shrink1_abs kappa a H). reflexivity.
Qed.

(** ** Sorting *)

Lemma insert_perm (a : Q) (l : vec) : Permutation (insert a l) (a :: l).
Proof.
  induction l as [| b l IH]; simpl; [reflexivity |].
  destruct (Qle_bool a b); [reflexivity |].
  rewrite IH. apply perm_swap.
Qed.

Lemma sort_perm (l : vec) : Permutation (sort l) l.
Proof.
  induction l as [| a l IH]; simpl; [reflexivity |].
  rewrite insert_perm, IH. reflexivity.
Qed.

Lemma insert_sorted (a : Q) (l : vec) :
  StronglySorted Qle l -> StronglySorted Qle (insert a l).
Proof.
  induction 1 as [| b l Hs IH Hb]; simpl.
  - repeat constructor.
  - destruct (Qle_bool a b) eqn:E.
    + apply Qle_bool_iff in E. constructor; [constructor; assumption |].
      constructor; [exact E |].
      eapply Forall_impl; [| exact Hb]. intros c Hc. simpl in Hc. lra.
    + apply Qle_bool_false in E. constructor; [exact IH |].
      eapply Permutation_Forall; [symmetry; apply insert_perm |].
      constructor; [lra | exact Hb].
Qed.

Lemma sort_sorted (l : vec) : StronglySorted Qle (sort l).
Proof.
  induction l as [| a l IH]; simpl; [constructor | apply insert_sorted, IH].
Qed.

Lemma desc_snoc (l : vec) (a : Q) :
  desc l -> Forall (fun b => a <= b) l -> desc (l ++ [a]).
Proof.
  unfold desc. induction 1 as [| b l Hs IH Hb]; intro Ha; simpl.
  - repeat constructor.
  - inversion Ha; subst. constructor; [apply IH; assumption |].
    apply Forall_app. split; [exact Hb | repeat constructor; assumption].
Qed.

Lemma desc_rev_sorted (l : vec) : StronglySorted Qle l -> desc (rev l).
Proof.
  induction 1 as [| a l Hs IH Ha]; simpl; [constructor |].
  apply desc_snoc; [exact IH |].
  eapply Permutation_Forall; [apply Permutation_rev | exact Ha].
Qed.

Lemma desc_sorted_magnitudes (x : vec) : desc (rev (sort (vabs x))).
Proof. apply desc_rev_sorted, sort_sorted. Qed.

Lemma perm_sorted_magnitudes (x : vec) :
  Permutation (rev (sort (vabs x))) (vabs x).
Proof.
  rewrite <- Permutation_rev. apply sort_perm.
Qed.

Lemma desc_skipn (K : nat) (u : vec) :
  desc u -> (K < length u)%nat ->
  Forall (fun a => a <= nth K u 0) (skipn K u).
Proof.
  unfold desc. revert u. induction K as [| K IH]; intros u Hd HK.
  - destruct u as [| a u]; [simpl in HK; lia |].
    inversion Hd; subst. simpl. constructor; [lra | assumption].
  - destruct u as [| a u]; [simpl in HK; lia |].
    inversion Hd; subst. simpl. apply IH; [assumption | simpl in HK; lia].
Qed.

Lemma desc_firstn (K : nat) (u : vec) :
  desc u -> (K < length u)%nat ->
  Forall (fun a => nth K u 0 <= a) (firstn (S K) u).
Proof.
  unfold desc. revert u. induction K as [| K IH]; intros u Hd HK.
  - destruct u as [| a u]; [simpl in HK; lia |].
    simpl. repeat constructor. lra.
  - destruct u as [| a u]; [simpl in HK; lia |].
    inversion Hd as [| ? ? Hs Ha]; subst. simpl in HK.
    change (firstn (S (S K)) (a :: u)) with (a :: firstn (S K) u).
    change (nth (S K) (a :: u) 0) with (nth K u 0).
    constructor; [| apply IH; [assumption | lia]].
    rewrite Forall_forall in Ha. apply Ha, nth_In. lia.
Qed.

(** ** The breakpoint search *)

Lemma cumsum_from_length (acc : Q) (u : vec) :
  length (cumsum_from acc u) = length u.
Proof.
  revert acc. induction u as [| a u IH]; intro acc; simpl; [| rewrite IH]; reflexivity.
Qed.

Lemma cumsum_from_nth (u : vec) : forall (acc : Q) (i : nat),
  (i < length u)%nat ->
  nth i (cumsum_from acc u) 0 == acc + vsum (firstn (S i) u).
Proof.
  induction u as [| a u IH]; intros acc i Hi; [simpl in Hi; lia |].
  destruct i as [| i].
  - simpl. lra.
  - change (nth (S i) (cumsum_from acc (a :: u)) 0)
      with (nth i (cumsum_from (acc + a) u) 0).
    rewrite IH by (simpl in Hi; lia).
    change (firstn (S (S i)) (a :: u)) with (a :: firstn (S i) u).
    cbn [vsum]. lra.
Qed.

Lemma vsum_firstn_S (u : vec) : forall K : nat,
  (K < length u)%nat ->
  vsum (firstn (S K) u) == vsum (firstn K u) + nth K u 0.
Proof.
  induction u as [| a u IH]; intros K HK; [simpl in HK; lia |].
  destruct K as [| K].
  - simpl. lra.
  - change (firstn (S (S K)) (a :: u)) with (a :: firstn (S K) u).
    change (firstn (S K) (a :: u)) with (a :: firstn K u).
    cbn [vsum nth]. rewrite IH by (simpl in HK; lia). lra.
Qed.

Lemma flags_from_length (q : Q) (u : vec) : forall (acc : Q) (lo : Z),
  length (flags_from q acc lo u) = length u.
Proof.
  unfold flags_from. induction u as [| a u IH]; intros acc lo; [reflexivity |].
  simpl. f_equal. apply IH.
Qed.

Lemma flags_from_nth (q : Q) (u : vec) : forall (acc : Q) (lo : Z) (i : nat),
  (i < length u)%nat ->
  nth i (flags_from q acc lo u) false = true <->
  nth i u 0 * inject_Z (lo + Z.of_nat i) < acc + vsum (firstn (S i) u) - q.
Proof.
  induction u as [| a u IH]; intros acc lo i Hi; [simpl in Hi; lia |].
  destruct i as [| i].
  - unfold flags_from. simpl. rewrite Qltb_true, Z.add_0_r.
    split; intro H; lra.
  - change (nth (S i) (flags_from q acc lo (a :: u)) false)
      with (nth i (flags_from q (acc + a) (lo + 1) u) false).
    rewrite IH by (simpl in Hi; lia).
    change (firstn (S (S i)) (a :: u)) with (a :: firstn (S i) u).
    replace (lo + 1 + Z.of_nat i)%Z with (lo + Z.of_nat (S i))%Z by lia.
    cbn [vsum nth]. split; intro H; lra.
Qed.

Lemma flags_of_length (u : vec) (q : Q) : length (flags_of u q) = length u.
Proof. apply (flags_from_length q u 0 1). Qed.

Lemma flags_of_nth (u : vec) (q : Q) (i : nat) :
  (i < length u)%nat ->
  nth i (flags_of u q) false = true <->
  nth i u 0 * inject_Z (Z.of_nat (S i)) < vsum (firstn (S i) u) - q.
Proof.
  intro Hi. change (flags_of u q) with (flags_from q 0 1 u).
  rewrite flags_from_nth by exact Hi.
  replace (1 + Z.of_nat i)%Z with (Z.of_nat (S i)) by lia.
  split; intro H; lra.
Qed.

Lemma first_true_Some (l : list bool) : forall i : nat,
  first_true l = Some i ->
  (i < length l)%nat /\ nth i l false = true /\
  forall j : nat, (j < i)%nat -> nth j l false = false.
Proof.
  induction l as [| [|] l IH]; intros i H; simpl in H; try discriminate.
  - injection H as <-. simpl. repeat split; [lia | intros; lia].
  - destruct (first_true l) as [k |]; simpl in H; [| discriminate].
    injection H as <-. destruct (IH k eq_refl) as (H1 & H2 & H3).
    simpl. repeat split; [lia | exact H2 |].
    intros [| j] Hj; [reflexivity | apply H3; lia].
Qed.

Lemma first_true_None (l : list bool) :
  first_true l = None -> forall j : nat, nth j l false = false.
Proof.
  induction l as [| [|] l IH]; intros H j; simpl in H; try discriminate.
  - destruct j; reflexivity.
  - destruct (first_true l); [discriminate |].
    destruct j as [| j]; [reflexivity | apply IH; reflexivity].
Qed.

Section Breakpoint.

Variables (u : vec) (q : Q).
Hypothesis Hq : 0 <= q.
Hypothesis Hu : Forall (fun a => 0 <= a) u.
Hypothesis Hinvalid : q < vsum u.

Let K := K_of u q.
Let kappa := kappa_of u q.

Lemma u_nonempty : (0 < length u)%nat.
Proof.
  destruct u; [simpl in Hinvalid; lra | simpl; lia].
Qed.

(** A radius [q >= 0] never raises the first flag. *)
Lemma first_flag_false : nth 0 (flags_of u q) false = false.
Proof.
  apply not_true_is_false. rewrite flags_of_nth by apply u_nonempty.
  change (inject_Z (Z.of_nat 1)) with 1.
  destruct u as [| a u']; cbn [nth firstn vsum]; lra.
Qed.

Lemma K_of_range : (1 <= K <= length u)%nat.
Proof.
  pose proof u_nonempty as Hn.
  subst K. unfold K_of, argmax. rewrite flags_of_length.
  destruct (first_true (flags_of u q)) as [[| k] |] eqn:E; simpl; try lia.
  apply first_true_Some in E. rewrite flags_of_length in E. lia.
Qed.

(** The scan that raises no flag, or only the first, falls back to the
    full length. *)
Lemma K_of_fallback : argmax (flags_of u q) = O -> K = length u.
Proof.
  intro H. subst K. unfold K_of. rewrite H. simpl. apply flags_of_length.
Qed.

Lemma K_of_last_false :
  vsum (firstn K u) - q <= nth (K - 1) u 0 * inject_Z (Z.of_nat K).
Proof.
  pose proof K_of_range as HK.
  assert (Hf : nth (K - 1) (flags_of u q) false = false).
  { subst K. unfold K_of, argmax in *. rewrite flags_of_length in *.
    destruct (first_true (flags_of u q)) as [[| k] |] eqn:E; simpl in *.
    - apply first_true_Some in E. destruct E as (_ & E & _).
      pose proof first_flag_false. congruence.
    - apply first_true_Some in E. destruct E as (_ & _ & E). apply E. lia.
    - apply first_true_None. exact E. }
  apply not_true_iff_false in Hf. rewrite flags_of_nth in Hf by lia.
  replace (S (K - 1)) with K in Hf by lia. lra.
Qed.

Lemma K_of_next_true :
  (K < length u)%nat ->
  nth K u 0 * inject_Z (Z.of_nat (S K)) < vsum (firstn (S K) u) - q.
Proof.
  intro HK. apply flags_of_nth; [exact HK |].
  subst K. unfold K_of, argmax in *. rewrite flags_of_length in *.
  destruct (first_true (flags_of u q)) as [[| k] |] eqn:E; simpl in *; try lia.
  apply first_true_Some in E. apply E.
Qed.

Lemma K_pos : 0 < inject_Z (Z.of_nat K).
Proof.
  pose proof K_of_range. change 0 with (inject_Z 0). rewrite <- Zlt_Qlt. lia.
Qed.

Lemma kappa_times_K : kappa * inject_Z (Z.of_nat K) == vsum (firstn K u) - q.
Proof.
  pose proof K_of_range as HK. pose proof K_pos as HKq.
  subst kappa. unfold kappa_of. fold K. unfold cumsum.
  rewrite cumsum_from_nth by lia.
  replace (S (K - 1)) with K by lia.
  field. lra.
Qed.

Lemma kappa_le_Kth : kappa <= nth (K - 1) u 0.
Proof.
  pose proof K_pos. pose proof kappa_times_K. pose proof K_of_last_false.
  nra.
Qed.

Lemma nth_nonneg (i : nat) : 0 <= nth i u 0.
Proof.
  destruct (Nat.lt_ge_cases i (length u)) as [H | H].
  - rewrite Forall_forall in Hu. apply Hu, nth_In, H.
  - rewrite nth_overflow by exact H. lra.
Qed.

Lemma kappa_ge_next : (K < length u)%nat -> nth K u 0 < kappa.
Proof.
  intro HK. pose proof K_pos. pose proof kappa_times_K as Hk.
  pose proof (K_of_next_true HK) as Ht.
  rewrite vsum_firstn_S in Ht by exact HK.
  rewrite Nat2Z.inj_succ in Ht. unfold Z.succ in Ht.
  rewrite inject_Z_plus in Ht. change (inject_Z 1) with 1 in Ht.
  nra.
Qed.

Lemma kappa_pos : 0 < kappa.
Proof.
  pose proof K_of_range as HK. pose proof K_pos. pose proof kappa_times_K as Hk.
  destruct (Nat.lt_ge_cases K (length u)) as [H1 | H1].
  - pose proof (kappa_ge_next H1). pose proof (nth_nonneg K). lra.
  - assert (HKn : K = length u) by lia.
    rewrite HKn, firstn_all in Hk. rewrite <- HKn in Hk. nra.
Qed.

(** The magnitudes shrunk by [kappa] sum to the radius. *)
Lemma pos_sum_kappa : desc u -> pos_sum kappa u == q.
Proof.
  intro Hd. pose proof K_of_range as HK. pose proof kappa_times_K as Hk.
  rewrite <- (firstn_skipn K u) at 1. rewrite pos_sum_app.
  rewrite pos_sum_above.
  - rewrite firstn_length_le by lia.
    rewrite pos_sum_below; [lra |].
    destruct (Nat.lt_ge_cases K (length u)) as [H1 | H1].
    + pose proof (kappa_ge_next H1) as Hn.
      eapply Forall_impl; [| apply (desc_skipn K u Hd H1)].
      intros a Ha. simpl in Ha. lra.
    + rewrite skipn_all2 by exact H1. constructor.
  - pose proof kappa_le_Kth as Hle.
    assert (HS : S (K - 1) = K) by lia.
    pose proof (desc_firstn (K - 1) u Hd) as Hf. rewrite HS in Hf.
    eapply Forall_impl; [| apply Hf; lia].
    intros a Ha. simpl in Ha. lra.
Qed.

End Breakpoint.

(** ** The projection *)

Lemma sorted_magnitudes_nonneg (x : vec) :
  Forall (fun a => 0 <= a) (rev (sort (vabs x))).
Proof.
  eapply Permutation_Forall; [symmetry; apply perm_sorted_magnitudes |].
  apply vabs_nonneg.
Qed.

Lemma sorted_magnitudes_sum (x : vec) :
  vsum (rev (sort (vabs x))) == arr_l1norm x.
Proof. apply vsum_perm, perm_sorted_magnitudes. Qed.

Lemma sorted_magnitudes_length (x : vec) :
  length (rev (sort (vabs x))) = length x.
Proof.
  rewrite (Permutation_length (perm_sorted_magnitudes x)).
  apply length_map.
Qed.

Lemma kappa_of_pos (x : vec) (q : Q) :
  0 <= q -> q < arr_l1norm x -> 0 < kappa_of (rev (sort (vabs x))) q.
Proof.
  intros Hq Hx. apply kappa_pos; [exact Hq | apply sorted_magnitudes_nonneg |].
  rewrite sorted_magnitudes_sum. exact Hx.
Qed.

(** Outside the ball, the projection lands on its boundary. *)
Lemma _project_to_l1_ball_norm (x : vec) (q : Q) :
  0 <= q -> q < arr_l1norm x -> arr_l1norm (_project_to_l1_ball x q) == q.
Proof.
  intros Hq Hx. unfold _project_to_l1_ball.
  rewrite arr_l1norm_shrink by (apply Qlt_le_weak, kappa_of_pos; assumption).
  rewrite <- (pos_sum_perm _ _ _ (perm_sorted_magnitudes x)).
  apply pos_sum_kappa.
  - exact Hq.
  - apply sorted_magnitudes_nonneg.
  - rewrite sorted_magnitudes_sum. exact Hx.
  - apply desc_sorted_magnitudes.
Qed.

Lemma project_to_l1_ball_valid (x : vec) (q : Q) :
  arr_l1norm x <= q -> project_to_l1_ball x q = x.
Proof.
  intro H. unfold project_to_l1_ball.
  apply Qltb_false in H. rewrite H. reflexivity.
Qed.

Lemma project_to_l1_ball_invalid (x : vec) (q : Q) :
  q < arr_l1norm x -> project_to_l1_ball x q = _project_to_l1_ball x q.
Proof.
  intro H. unfold project_to_l1_ball.
  apply Qltb_true in H. rewrite H. reflexivity.
Qed.

Lemma project_to_l1_ball_feasible (x : vec) (q : Q) :
  0 <= q -> arr_l1norm (project_to_l1_ball x q) <= q.
Proof.
  intro Hq. destruct (Qlt_le_dec q (arr_l1norm x)) as [H | H].
  - rewrite project_to_l1_ball_invalid by exact H.
    rewrite _project_to_l1_ball_norm by assumption. lra.
  - rewrite project_to_l1_ball_valid by exact H. exact H.
Qed.

Lemma sqdist_nonneg (x z : vec) : 0 <= sqdist x z.
Proof.
  unfold sqdist, dot, vsub, vmul. revert z.
  induction x as [| a x IH]; intros [| c z]; simpl; try lra.
  pose proof (IH z). pose proof (Qsq_nonneg (a - c)). lra.
Qed.

Lemma sqdist_self (x : vec) : sqdist x x == 0.
Proof.
  unfold sqdist, dot, vsub, vmul.
  induction x as [| a x IH]; simpl; [lra | rewrite IH; ring].
Qed.

(** The shrunk array against any other array [z] of the same length: the
    gain in squared distance pays for the difference of the l1 norms. *)
Lemma shrink_nearest (kappa : Q) (x : vec) : forall z : vec,
  0 <= kappa -> length z = length x ->
  2 * kappa * (arr_l1norm (shrink kappa x) - arr_l1norm z)
  <= sqdist x z - sqdist x (shrink kappa x).
Proof.
  unfold sqdist, dot, vsub, vmul, arr_l1norm, vabs, shrink.
  induction x as [| a x IH]; intros [| c z] Hk Hlen; simpl in Hlen; try lia.
  - simpl. lra.
  - cbn [map zip_with vsum].
    pose proof (IH z Hk ltac:(lia)) as H1.
    pose proof (shrink1_nearest kappa a c Hk) as H2. cbv zeta in H2.
    lra.
Qed.

Lemma all_zero_norm (p : vec) : all_zero p = true -> arr_l1norm p == 0.
Proof.
  unfold all_zero, arr_l1norm, vabs.
  induction p as [| a p IH]; simpl; intro H; [reflexivity |].
  apply andb_true_iff in H. destruct H as [Ha Hp].
  apply Qeq_bool_iff in Ha. rewrite (IH Hp), Ha. reflexivity.
Qed.

Lemma norm_zero_all_zero (p : vec) : arr_l1norm p <= 0 -> all_zero p = true.
Proof.
  unfold all_zero, arr_l1norm, vabs.
  induction p as [| a p IH]; cbn [map vsum forallb]; intro H; [reflexivity |].
  pose proof (arr_l1norm_nonneg p) as Hp. unfold arr_l1norm, vabs in Hp.
  apply andb_true_iff. split.
  - apply Qeq_bool_iff. split_minmax; lra.
  - apply IH. pose proof (Qabs_nonneg a). lra.
Qed.

Lemma kappa_of_fallback (x : vec) (q : Q) :
  let u := rev (sort (vabs x)) in
  (0 < length x)%nat -> K_of u q = length x ->
  kappa_of u q == (arr_l1norm x - q) / inject_Z (Z.of_nat (length x)).
Proof.
  intros u Hn HK. unfold kappa_of. rewrite HK. unfold cumsum.
  pose proof (sorted_magnitudes_length x) as Hlen. fold u in Hlen.
  rewrite cumsum_from_nth by lia.
  replace (S (length x - 1)) with (length u) by lia.
  rewrite firstn_all. unfold u. rewrite sorted_magnitudes_sum.
  apply Qdiv_comp; [ring | reflexivity].
Qed.

(** ** Loops *)

Lemma while_loop_inv {S : Type} (P : S -> Prop) (cond : S -> bool)
  (body : S -> S) :
  (forall s, P s -> cond s = true -> P (body s)) ->
  forall (fuel : nat) (s : S), P s -> P (while_loop fuel cond body s).
Proof.
  intros Hstep fuel. induction fuel as [| fuel IH]; intros s Hs; simpl.
  - exact Hs.
  - destruct (cond s) eqn:E; [apply IH, Hstep; assumption | exact Hs].
Qed.

(** With a measure that the body decreases and fuel that covers it, the
    loop ends because its test fails, not because the fuel runs out. *)
Lemma while_loop_exit {S : Type} (measure : S -> nat) (cond : S -> bool)
  (body : S -> S) :
  (forall s, cond s = true -> (measure (body s) < measure s)%nat) ->
  forall (fuel : nat) (s : S),
    (measure s <= fuel)%nat -> cond (while_loop fuel cond body s) = false.
Proof.
  intros Hdec fuel. induction fuel as [| fuel IH]; intros s Hs; simpl.
  - destruct (cond s) eqn:E; [| reflexivity]. specialize (Hdec s E). lia.
  - destruct (cond s) eqn:E; [| exact E].
    apply IH. specialize (Hdec s E). lia.
Qed.

Lemma while_loopM_exit {S : Type} (measure : S -> nat) (cond : S -> bool)
  (body : S -> res S) :
  (forall s, cond s = true -> (0 < measure s)%nat) ->
  (forall s s', cond s = true -> body s = Ok s' ->
                (measure s' < measure s)%nat) ->
  forall (fuel : nat) (s s' : S),
    (measure s <= fuel)%nat ->
    while_loopM fuel cond body s = Ok s' -> cond s' = false.
Proof.
  intros Hpos Hdec fuel.
  induction fuel as [| fuel IH]; intros s s' Hs H; simpl in H.
  - injection H as <-. destruct (cond s) eqn:E; [| reflexivity].
    specialize (Hpos s E). lia.
  - destruct (cond s) eqn:E; [| injection H as <-; exact E].
    destruct (body s) as [s1 |] eqn:Eb; simpl in H; [| discriminate].
    eapply IH; [| exact H]. specialize (Hdec s s1 E Eb). lia.
Qed.

Lemma while_loopM_inv {S : Type} (P : S -> Prop) (cond : S -> bool)
  (body : S -> res S) :
  (forall s s', P s -> cond s = true -> body s = Ok s' -> P s') ->
  forall (fuel : nat) (s s' : S),
    P s -> while_loopM fuel cond body s = Ok s' -> P s'.
Proof.
  intros Hstep fuel. induction fuel as [| fuel IH]; intros s s' Hs H; simpl in H.
  - injection H as <-. exact Hs.
  - destruct (cond s) eqn:E; [| injection H as <-; exact Hs].
    destruct (body s) as [s1 |] eqn:Eb; simpl in H; [| discriminate].
    eapply IH; [| exact H]. eapply Hstep; eassumption.
Qed.

(** ** The line search *)

Section LineSearchProperties.

Variable sqrt : Q -> Q.
Variables (A : LinearOperator) (b x g : vec) (alpha0 f_max : Q).
Variables (proj : vec -> Q -> vec) (tau gamma : Q).

Let init := ls_init A b x g alpha0 f_max proj tau gamma.
Let next_func := ls_next_func sqrt A b x g f_max proj tau gamma.
Let search := curvy_line_search sqrt A b x g alpha0 f_max proj tau gamma.

Lemma ls_cond_func_true (st : LS.t) :
  ls_cond_func st = true <->
  (LS.n_iters st < 10)%Z /\ LS.gtd st < 0 /\ LS.f_lim st <= LS.f_val st.
Proof.
  unfold ls_cond_func, ls_max_iters.
  rewrite !andb_true_iff, Z.ltb_lt, Qltb_true, Qle_bool_iff. tauto.
Qed.

Lemma ls_cond_func_false (st : LS.t) :
  ls_cond_func st = false <->
  (10 <= LS.n_iters st)%Z \/ 0 <= LS.gtd st \/ LS.f_val st < LS.f_lim st.
Proof.
  unfold ls_cond_func, ls_max_iters.
  rewrite !andb_false_iff, Z.ltb_ge, Qltb_false, Qle_bool_false. tauto.
Qed.

Lemma ls_next_func_n_iters (st : LS.t) :
  LS.n_iters (next_func st) = (LS.n_iters st + 1)%Z.
Proof.
  subst next_func. unfold ls_next_func.
  destruct (Qle_bool _ _); reflexivity.
Qed.

Lemma ls_next_func_alpha (st : LS.t) :
  LS.alpha (next_func st) = LS.alpha st / 2.
Proof.
  subst next_func. unfold ls_next_func.
  destruct (Qle_bool _ _); reflexivity.
Qed.

Lemma ls_next_func_f_lim (st : LS.t) :
  LS.f_lim (next_func st)
  = f_max + gamma * LS.alpha (next_func st) * LS.gtd (next_func st).
Proof.
  subst next_func. unfold ls_next_func.
  destruct (Qle_bool _ _); reflexivity.
Qed.

Lemma ls_next_func_x_new (st : LS.t) :
  exists v : vec, LS.x_new (next_func st) = proj v tau.
Proof.
  subst next_func. unfold ls_next_func.
  destruct (Qle_bool _ _); eexists; reflexivity.
Qed.

(** The search is total: its loop ends by its own test. *)
Lemma curvy_line_search_exit : ls_cond_func search = false.
Proof.
  subst search. unfold curvy_line_search.
  apply (while_loop_exit (fun st => Z.to_nat (10 - LS.n_iters st))).
  - intros st H. apply ls_cond_func_true in H.
    fold next_func. rewrite ls_next_func_n_iters. lia.
  - simpl. lia.
Qed.

Lemma curvy_line_search_n_iters : (1 <= LS.n_iters search <= 10)%Z.
Proof.
  subst search. unfold curvy_line_search.
  apply (while_loop_inv (fun st => (1 <= LS.n_iters st <= 10)%Z)).
  - intros st H Hc. apply ls_cond_func_true in Hc.
    fold next_func. rewrite ls_next_func_n_iters. lia.
  - simpl. lia.
Qed.

(** Every candidate comes out of the projector. *)
Lemma curvy_line_search_x_new :
  exists v : vec, LS.x_new search = proj v tau.
Proof.
  subst search. unfold curvy_line_search.
  apply (while_loop_inv (fun st => exists v, LS.x_new st = proj v tau)).
  - intros st _ _. apply ls_next_func_x_new.
  - eexists. reflexivity.
Qed.

(** The residual and the objective value of the state belong to its
    candidate. *)
Lemma curvy_line_search_consistent :
  LS.r_new search = vsub b (times A (LS.x_new search)) /\
  LS.f_val search = obj_val (LS.r_new search).
Proof.
  subst search. unfold curvy_line_search.
  apply (while_loop_inv (fun st =>
    LS.r_new st = vsub b (times A (LS.x_new st)) /\
    LS.f_val st = obj_val (LS.r_new st))).
  - intros st _ _. fold next_func. subst next_func. unfold ls_next_func.
    destruct (Qle_bool _ _); split; reflexivity.
  - split; reflexivity.
Qed.

(** The bound the loop tests: [f_max] for the first candidate, the Armijo
    bound for the later ones. *)
Lemma curvy_line_search_f_lim :
  (LS.n_iters search = 1%Z /\ LS.f_lim search = f_max) \/
  ((1 < LS.n_iters search)%Z /\
   LS.f_lim search = f_max + gamma * LS.alpha search * LS.gtd search).
Proof.
  subst search. unfold curvy_line_search.
  apply (while_loop_inv (fun st =>
    (LS.n_iters st = 1%Z /\ LS.f_lim st = f_max) \/
    ((1 < LS.n_iters st)%Z /\
     LS.f_lim st = f_max + gamma * LS.alpha st * LS.gtd st))).
  - intros st H _. right. split.
    + fold next_func. rewrite ls_next_func_n_iters.
      destruct H as [[H _] | [H _]]; lia.
    + apply ls_next_func_f_lim.
  - left. split; reflexivity.
Qed.

(** The sign of [gamma alpha] is that of [gamma alpha0]: the step is only
    ever halved. *)
Lemma curvy_line_search_gamma_alpha :
  0 <= gamma * alpha0 -> 0 <= gamma * LS.alpha search.
Proof.
  intro H0. subst search. unfold curvy_line_search.
  apply (while_loop_inv (fun st => 0 <= gamma * LS.alpha st)).
  - intros st H _. fold next_func. rewrite ls_next_func_alpha.
    setoid_replace (gamma * (LS.alpha st / 2))
      with ((gamma * LS.alpha st) / 2) by (field; discriminate).
    apply Qle_shift_div_l; lra.
  - exact H0.
Qed.

Lemma curvy_line_search_alpha_nonneg : 0 <= alpha0 -> 0 <= LS.alpha search.
Proof.
  intro H0. subst search. unfold curvy_line_search.
  apply (while_loop_inv (fun st => 0 <= LS.alpha st)).
  - intros st H _. fold next_func. rewrite ls_next_func_alpha.
    apply Qle_shift_div_l; lra.
  - exact H0.
Qed.

(** C2, as amended: a search that ends with a negative [gtd] and with
    its candidate accepted by the test of the loop (it stopped before the
    cap of 10 candidates, or its objective value is below the bound
    [f_lim] of its state) returns an objective value strictly below
    [f_max], when the candidate is the first one or [gamma alpha0 >= 0]. *)
Theorem curvy_line_search_descent :
  LS.gtd search < 0 ->
  (LS.n_iters search < 10)%Z \/ LS.f_val search < LS.f_lim search ->
  LS.n_iters search = 1%Z \/ 0 <= gamma * alpha0 ->
  LS.f_val search < f_max.
Proof.
  intros Hgtd Hacc Hsign.
  assert (He : LS.f_val search < LS.f_lim search).
  { destruct Hacc as [Hn | Hf]; [| exact Hf].
    pose proof curvy_line_search_exit as He. apply ls_cond_func_false in He.
    destruct He as [He | [He | He]]; [lia | lra | exact He]. }
  destruct curvy_line_search_f_lim as [[_ Hl] | [Hn Hl]];
    rewrite Hl in He; [exact He |].
  destruct Hsign as [H1 | Hsign]; [lia |].
  pose proof (curvy_line_search_gamma_alpha Hsign) as Hal.
  nra.
Qed.

End LineSearchProperties.

(** ** The spectral step *)

Lemma dot_self_nonneg (s : vec) : 0 <= dot s s.
Proof.
  unfold dot, vmul. induction s as [| a s IH]; simpl; [lra |].
  pose proof (Qsq_nonneg a). lra.
Qed.

Lemma bb_step_bounds (sts sty lo hi : Q) :
  lo <= hi ->
  let a := if Qle_bool sty 0 then hi else clip (sts / sty) lo hi in
  lo <= a /\ a <= hi.
Proof.
  intros H a. subst a. destruct (Qle_bool sty 0); [lra |].
  apply clip_bounds, H.
Qed.

Lemma bb_step_nonneg (sts sty lo hi : Q) :
  0 <= hi -> 0 <= sts ->
  0 <= (if Qle_bool sty 0 then hi else clip (sts / sty) lo hi).
Proof.
  intros Hhi Hs. destruct (Qle_bool sty 0) eqn:E; [exact Hhi |].
  apply Qle_bool_false in E.
  assert (0 <= sts / sty) by (apply Qle_shift_div_l; lra).
  unfold clip. split_minmax; lra.
Qed.

(** ** The solvers *)

Section SolverProperties.

Variable sqrt : Q -> Q.
Variable cbuf_push_left : vec -> Q -> vec.

Lemma lasso_metrics_module_globals (x g r : vec) (f : Q) :
  lasso_metrics sqrt module_globals x g r f = Raise (NameError "b").
Proof. reflexivity. Qed.

Section LassoProperties.

Variable ge : namespace.
Variables (A : LinearOperator) (b : vec) (tau : Q) (x0 : vec).
Variable options : SPGL1Options.

Let init := lasso_init sqrt ge A b tau x0 options.
Let body_func := lasso_body_func sqrt cbuf_push_left ge A b tau options.
Let cond_func := lasso_cond_func sqrt b options.
Let solve := solve_lasso_from sqrt cbuf_push_left ge A b tau x0 options.
Let reachable := lasso_reachable sqrt cbuf_push_left ge A b tau x0 options.

Lemma lasso_init_Ok (st : Lasso.t) :
  init = Ok st ->
  Lasso.x st = project_to_l1_ball x0 tau /\
  Lasso.n_times st = 2%Z /\ Lasso.n_trans st = 2%Z.
Proof.
  subst init. unfold lasso_init. intro H.
  destruct (lasso_metrics _ _ _ _ _ _) as [[rn rg] | e]; simpl in H;
    [| discriminate].
  injection H as <-. repeat split.
Qed.

Lemma lasso_body_func_Ok (st st' : Lasso.t) :
  body_func st = Ok st' ->
  let lsearch := curvy_line_search sqrt A b (Lasso.x st) (Lasso.g st)
    (Lasso.alpha_next st) (vmax (Lasso.f_past st)) project_to_l1_ball tau
    (gamma options) in
  let s := vsub (Lasso.x st') (Lasso.x st) in
  let y := vsub (Lasso.g st') (Lasso.g st) in
  Lasso.x st' = LS.x_new lsearch /\
  Lasso.r st' = LS.r_new lsearch /\
  Lasso.g st' = vneg (trans A (LS.r_new lsearch)) /\
  Lasso.alpha_next st' =
    (if Qle_bool (dot s y) 0 then alpha_max options
     else clip (dot s s / dot s y) (alpha_min options) (alpha_max options)) /\
  Lasso.n_times st' = 2%Z /\ Lasso.n_trans st' = 2%Z.
Proof.
  subst body_func. unfold lasso_body_func. intro H.
  destruct (lasso_metrics _ _ _ _ _ _) as [[rn rg] | e]; simpl in H;
    [| discriminate].
  injection H as <-. repeat split.
Qed.

Lemma lasso_reachable_feasible (st : Lasso.t) :
  0 <= tau -> reachable st -> arr_l1norm (Lasso.x st) <= tau.
Proof.
  intros Ht H. induction H as [st H | st st' _ _ _ H].
  - apply lasso_init_Ok in H. destruct H as (-> & _).
    apply project_to_l1_ball_feasible, Ht.
  - apply lasso_body_func_Ok in H. destruct H as (-> & _).
    destruct (curvy_line_search_x_new sqrt A b (Lasso.x st) (Lasso.g st)
      (Lasso.alpha_next st) (vmax (Lasso.f_past st)) project_to_l1_ball tau
      (gamma options)) as [v ->].
    apply project_to_l1_ball_feasible, Ht.
Qed.

Lemma lasso_reachable_counters (st : Lasso.t) :
  reachable st -> Lasso.n_times st = 2%Z /\ Lasso.n_trans st = 2%Z.
Proof.
  intro H. destruct H as [st H | st st' _ _ H].
  - apply lasso_init_Ok in H. tauto.
  - apply lasso_body_func_Ok in H. tauto.
Qed.

(** What the solver returns is a state of its loop. *)
Lemma solve_lasso_from_reachable (st : Lasso.t) :
  solve = Ok st -> reachable st.
Proof.
  subst solve. unfold solve_lasso_from. intro H.
  destruct (lasso_init _ _ _ _ _ _ _) as [st0 |] eqn:E; simpl in H;
    [| discriminate].
  revert H. apply while_loopM_inv.
  - intros s s' Hs Hc Hb. eapply lasso_reach_step; eassumption.
  - apply lasso_reach_init. exact E.
Qed.

Lemma lasso_init_iterations (st : Lasso.t) :
  lasso_init sqrt ge A b tau x0 options = Ok st -> Lasso.iterations st = 1%Z.
Proof.
  unfold lasso_init. intro H.
  destruct (lasso_metrics _ _ _ _ _ _) as [[rn rg] | e]; simpl in H;
    [| discriminate].
  injection H as <-. reflexivity.
Qed.

Lemma lasso_body_func_iterations (st st' : Lasso.t) :
  lasso_body_func sqrt cbuf_push_left ge A b tau options st = Ok st' ->
  Lasso.iterations st' = (Lasso.iterations st + 1)%Z.
Proof.
  unfold lasso_body_func. intro H.
  destruct (lasso_metrics _ _ _ _ _ _) as [[rn rg] | e]; simpl in H;
    [| discriminate].
  injection H as <-. reflexivity.
Qed.

(** When the solver returns, its loop has ended by its own test. *)
Lemma solve_lasso_from_exit (st : Lasso.t) :
  solve_lasso_from sqrt cbuf_push_left ge A b tau x0 options = Ok st ->
  lasso_cond_func sqrt b options st = false.
Proof.
  unfold solve_lasso_from. intro H.
  destruct (lasso_init _ _ _ _ _ _ _) as [st0 |] eqn:E; simpl in H;
    [| discriminate].
  apply lasso_init_iterations in E.
  revert H. apply (while_loopM_exit
    (fun s => Z.to_nat (max_iters options - Lasso.iterations s))).
  - intros s Hc. unfold lasso_cond_func in Hc.
    rewrite !andb_true_iff, Z.ltb_lt in Hc. lia.
  - intros s s' Hc Hb. unfold lasso_cond_func in Hc.
    rewrite !andb_true_iff, Z.ltb_lt in Hc.
    apply lasso_body_func_iterations in Hb. lia.
  - lia.
Qed.

End LassoProperties.

Section BpicProperties.

Variables (A : LinearOperator) (b : vec) (sigma : Q) (x0 : vec).
Variable options : SPGL1Options.

Let init := bpic_init sqrt A b sigma x0 options.
Let body_func := bpic_body_func sqrt cbuf_push_left A b sigma options.
Let solve := solve_bpic_from sqrt cbuf_push_left A b sigma x0 options.
Let reachable := bpic_reachable sqrt cbuf_push_left A b sigma x0 options.

(** The Newton correction of [tau], from the residual of the current
    iterate. *)
Let newton (tau : Q) (r : vec) : Q :=
  let r_norm := norm sqrt r in
  let g_dnorm := dual_norm (vneg (trans A r)) in
  Qmax 0 (tau + (r_norm * (r_norm - sigma)) / g_dnorm).

Lemma newton_nonneg (tau : Q) (r : vec) : 0 <= newton tau r.
Proof. subst newton. cbv beta zeta. split_minmax; lra. Qed.

Lemma bpic_init_spec :
  let tau0 := norm_l1 x0 in
  BP.tau init = newton tau0 (vsub b (times A x0)) /\
  BP.x init = project_to_l1_ball x0 (BP.tau init) /\
  BP.r init = vsub b (times A (BP.x init)) /\
  BP.g init = vneg (trans A (BP.r init)) /\
  BP.n_times init = 2%Z /\ BP.n_trans init = 2%Z.
Proof.
  subst init newton. unfold bpic_init, update_xrgf, bpic_metrics.
  rewrite (project_to_l1_ball_valid x0 (norm_l1 x0)) by apply Qle_refl.
  cbv beta iota zeta. repeat split.
Qed.

Lemma bpic_body_func_spec (st : BP.t) :
  let lsearch := curvy_line_search sqrt A b (BP.x st) (BP.g st)
    (BP.alpha_next st) (vmax (BP.f_past st)) project_to_l1_ball (BP.tau st)
    (gamma options) in
  let st' := body_func st in
  let s := vsub (BP.x st') (BP.x st) in
  let y := vsub (BP.g st') (BP.g st) in
  (BP.tau st' = BP.tau st \/ BP.tau st' = newton (BP.tau st) (LS.r_new lsearch)) /\
  (BP.tau st' < BP.tau st ->
     BP.x st' = project_to_l1_ball (LS.x_new lsearch) (BP.tau st') /\
     BP.r st' = vsub b (times A (BP.x st')) /\
     BP.g st' = vneg (trans A (BP.r st')) /\
     BP.f_past st' = cbuf_push_left (BP.f_past st) (obj_val (BP.r st'))) /\
  (~ BP.tau st' < BP.tau st ->
     BP.x st' = LS.x_new lsearch /\
     BP.r st' = LS.r_new lsearch /\
     BP.g st' = vneg (trans A (LS.r_new lsearch)) /\
     BP.f_past st' = cbuf_push_left (BP.f_past st) (LS.f_val lsearch)) /\
  BP.alpha_next st' =
    (if Qle_bool (dot s y) 0 then alpha_max options
     else clip (dot s s / dot s y) (alpha_min options) (alpha_max options)) /\
  BP.n_times st' = 2%Z /\ BP.n_trans st' = 2%Z.
Proof.
  intros lsearch st' s y. subst st' s y body_func newton.
  unfold bpic_body_func, bpic_metrics, update_xrgf. fold lsearch.
  cbv beta iota zeta.
  match goal with
  | |- context [if ?c then Qmax _ _ else _] => destruct c
  end;
  match goal with
  | |- context [Qltb ?t (BP.tau st)] =>
      destruct (Qltb t (BP.tau st)) eqn:E;
      [apply Qltb_true in E | apply Qltb_false in E]
  end; cbn [BP.tau BP.x BP.r BP.g BP.f_past BP.alpha_next BP.n_times BP.n_trans];
  (split; [auto |]); (split; [intro; try lra; repeat split |]);
  (split; [intro; try lra; repeat split |]); repeat split.
Qed.

End BpicProperties.

End SolverProperties.

Section BpicInvariant.

Variable sqrt : Q -> Q.
Variable cbuf_push_left : vec -> Q -> vec.
Variables (A : LinearOperator) (b : vec) (sigma : Q) (x0 : vec).
Variable options : SPGL1Options.

Let reachable := bpic_reachable sqrt cbuf_push_left A b sigma x0 options.

Lemma bpic_reachable_feasible (st : BP.t) :
  reachable st -> arr_l1norm (BP.x st) <= BP.tau st /\ 0 <= BP.tau st.
Proof.
  intro H. induction H as [| st _ [IHx IHt] _].
  - destruct (bpic_init_spec sqrt A b sigma x0 options) as (Ht & Hx & _).
    cbv zeta in Ht.
    assert (H0 : 0 <= BP.tau (bpic_init sqrt A b sigma x0 options))
      by (rewrite Ht; apply newton_nonneg).
    split; [| exact H0]. rewrite Hx. apply project_to_l1_ball_feasible, H0.
  - destruct (bpic_body_func_spec sqrt cbuf_push_left A b sigma options st)
      as (Ht & Hlt & Hge & _).
    set (st' := bpic_body_func sqrt cbuf_push_left A b sigma options st) in *.
    assert (H0 : 0 <= BP.tau st').
    { destruct Ht as [-> | ->]; [exact IHt | apply newton_nonneg]. }
    split; [| exact H0].
    destruct (Qlt_le_dec (BP.tau st') (BP.tau st)) as [H | H].
    + destruct (Hlt H) as (-> & _). apply project_to_l1_ball_feasible, H0.
    + destruct (Hge ltac:(lra)) as (-> & _).
      destruct (curvy_line_search_x_new sqrt A b (BP.x st) (BP.g st)
        (BP.alpha_next st) (vmax (BP.f_past st)) project_to_l1_ball
        (BP.tau st) (gamma options)) as [v ->].
      pose proof (project_to_l1_ball_feasible v (BP.tau st) IHt). lra.
Qed.

Lemma bpic_reachable_defined_reachable (st : BP.t) :
  bpic_reachable_defined sqrt cbuf_push_left A b sigma x0 options st ->
  reachable st.
Proof.
  induction 1 as [H0 | st _ IH Hc _].
  - apply bpic_reach_init.
  - apply bpic_reach_step; assumption.
Qed.




Lemma bpic_reachable_counters (st : BP.t) :
  reachable st -> BP.n_times st = 2%Z /\ BP.n_trans st = 2%Z.
Proof.
  intro H. destruct H as [| st _ _].
  - apply (bpic_init_spec sqrt A b sigma x0 options).
  - apply (bpic_body_func_spec sqrt cbuf_push_left A b sigma options st).
Qed.

Lemma solve_bpic_from_reachable :
  reachable (solve_bpic_from sqrt cbuf_push_left A b sigma x0 options).
Proof.
  unfold solve_bpic_from. apply while_loop_inv.
  - intros s Hs Hc. apply bpic_reach_step; assumption.
  - apply bpic_reach_init.
Qed.

(** The BPIC loop ends by its own test. *)
Lemma solve_bpic_from_exit :
  bpic_cond_func sqrt b sigma options
    (solve_bpic_from sqrt cbuf_push_left A b sigma x0 options) = false.
Proof.
  unfold solve_bpic_from.
  apply (while_loop_exit
    (fun st => Z.to_nat (max_iters options - BP.iterations st))).
  - intros st H. unfold bpic_cond_func in H.
    apply andb_true_iff in H. destruct H as [_ H]. apply Z.ltb_lt in H.
    assert (E : BP.iterations (bpic_body_func sqrt cbuf_push_left A b sigma options st)
                = (BP.iterations st + 1)%Z).
    { unfold bpic_body_func, bpic_metrics, update_xrgf.
      cbv beta iota zeta.
      repeat match goal with
      | |- context [if ?c then _ else _] => destruct c
      end; reflexivity. }
    rewrite E. lia.
  - assert (E : BP.iterations (bpic_init sqrt A b sigma x0 options) = 1%Z).
    { unfold bpic_init, update_xrgf, bpic_metrics. reflexivity. }
    rewrite E. lia.
Qed.

End BpicInvariant.

Lemma dot_zero_l (s y : vec) : all_zero s = true -> dot s y == 0.
Proof.
  unfold all_zero, dot, vmul. revert y.
  induction s as [| a s IH]; intros [| c y] H; simpl in *; try reflexivity.
  apply andb_true_iff in H. destruct H as [Ha Hs].
  apply Qeq_bool_iff in Ha. rewrite (IH y Hs), Ha. ring.
Qed.

(** * The claims *)

Section Claims.

Variable sqrt : Q -> Q.
Variable cbuf_push_left : vec -> Q -> vec.
Variable ge : namespace.
Variables (A : LinearOperator) (b : vec) (tau sigma : Q) (x0 : vec).
Variable options : SPGL1Options.

(** C1 (the code departs from it): [lasso_metrics] does not receive [b]
    and [tau]; it reads them from the namespace of the module, which binds
    neither, so the metrics function and with it every call of the LASSO
    solver raise [NameError: b].  The sibling [bpic_metrics], which takes
    [b] and [tau] as arguments, computes the gap of the claim. *)
Theorem lasso_metrics_name_error (x g r : vec) (f : Q) :
  lasso_metrics sqrt module_globals x g r f = Raise (NameError "b") /\
  solve_lasso_from sqrt cbuf_push_left module_globals A b tau x0 options
    = Raise (NameError "b") /\
  (let '(_, _, r_gap, _, _) := bpic_metrics sqrt b x g r f sigma tau in
   r_gap = Qabs (dot r (vsub r b) + tau * norm_linf g) / Qmax 1 f).
Proof. repeat split. Qed.



(** C9, as amended: in both solvers the next spectral step is
    [alpha_max] when [s.y <= 0] (in particular when [s = 0]) and
    [clip(s.s / s.y, alpha_min, alpha_max)] otherwise; for
    [alpha_min <= alpha_max] it lies in [[alpha_min, alpha_max]], and it is
    not negative when moreover [alpha_max >= 0]. *)
Theorem spectral_step_clamped (lst lst' : Lasso.t) (bst : BP.t) :
  alpha_min options <= alpha_max options ->
  lasso_body_func sqrt cbuf_push_left ge A b tau options lst = Ok lst' ->
  let bst' := bpic_body_func sqrt cbuf_push_left A b sigma options bst in
  let bb (s y : vec) :=
    if Qle_bool (dot s y) 0 then alpha_max options
    else clip (dot s s / dot s y) (alpha_min options) (alpha_max options) in
  let sl := vsub (Lasso.x lst') (Lasso.x lst) in
  let yl := vsub (Lasso.g lst') (Lasso.g lst) in
  let sb := vsub (BP.x bst') (BP.x bst) in
  let yb := vsub (BP.g bst') (BP.g bst) in
  Lasso.alpha_next lst' = bb sl yl /\
  BP.alpha_next bst' = bb sb yb /\
  (forall s y, dot s y <= 0 -> bb s y = alpha_max options) /\
  (forall s y, all_zero s = true -> bb s y = alpha_max options) /\
  (forall s y, alpha_min options <= bb s y <= alpha_max options) /\
  (0 <= alpha_max options -> forall s y, 0 <= bb s y).
Proof.
  intros Hle Hbody bst' bb sl yl sb yb.
  apply lasso_body_func_Ok in Hbody. destruct Hbody as (_ & _ & _ & Hl & _).
  destruct (bpic_body_func_spec sqrt cbuf_push_left A b sigma options bst)
    as (_ & _ & _ & Hb & _).
  assert (Hneg : forall s y, dot s y <= 0 -> bb s y = alpha_max options).
  { intros s y H. unfold bb. apply Qle_bool_iff in H. rewrite H. reflexivity. }
  repeat split.
  - exact Hl.
  - exact Hb.
  - exact Hneg.
  - intros s y H. apply Hneg. rewrite (dot_zero_l s y H). lra.
  - apply (bb_step_bounds (dot s s) (dot s y) _ _ Hle).
  - apply (bb_step_bounds (dot s s) (dot s y) _ _ Hle).
  - intros H s y. apply bb_step_nonneg; [exact H | apply dot_self_nonneg].
Qed.

(** C10: the state [solve_lasso_from] returns and the state
    [solve_bpic_from] returns have [n_times = n_trans = 2]; the body of
    either loop sets both to 2 whatever they were. *)
Theorem counters_constant (lst : Lasso.t) :
  solve_lasso_from sqrt cbuf_push_left ge A b tau x0 options = Ok lst ->
  let bst := solve_bpic_from sqrt cbuf_push_left A b sigma x0 options in
  Lasso.n_times lst = 2%Z /\ Lasso.n_trans lst = 2%Z /\
  BP.n_times bst = 2%Z /\ BP.n_trans bst = 2%Z /\
  (forall st st',
     lasso_body_func sqrt cbuf_push_left ge A b tau options st = Ok st' ->
     Lasso.n_times st' = 2%Z /\ Lasso.n_trans st' = 2%Z) /\
  (forall st,
     let st' := bpic_body_func sqrt cbuf_push_left A b sigma options st in
     BP.n_times st' = 2%Z /\ BP.n_trans st' = 2%Z).
Proof.
  intros H bst.
  apply solve_lasso_from_reachable, lasso_reachable_counters in H.
  pose proof (bpic_reachable_counters _ _ _ _ _ _ _ _
    (solve_bpic_from_reachable sqrt cbuf_push_left A b sigma x0 options)) as Hb.
  fold bst in Hb.
  repeat split; try tauto.
  - apply lasso_body_func_Ok in H0. tauto.
  - apply lasso_body_func_Ok in H0. tauto.
  - apply (bpic_body_func_spec sqrt cbuf_push_left A b sigma options st).
  - apply (bpic_body_func_spec sqrt cbuf_push_left A b sigma options st).
Qed.

End Claims.

(** C7: for [q >= 0] the projection lies in the ball and is
    at least as near to [x] as every point of the ball; outside the ball
    it is the soft-thresholding of [x] by the threshold [kappa > 0] of the
    breakpoint search, and its l1 norm is [q]; when the scan selects index
    0, [K] is the full length and [kappa = (||x||_1 - q) / n]; the result
    is then not all-zero when [q > 0], and it is the zero array when
    [q = 0]. *)
Theorem project_to_l1_ball_nearest (x : vec) (q : Q) :
  0 <= q ->
  let p := project_to_l1_ball x q in
  let u := rev (sort (vabs x)) in
  arr_l1norm p <= q /\
  (forall z : vec, length z = length x -> arr_l1norm z <= q ->
     sqdist x p <= sqdist x z) /\
  (q < arr_l1norm x ->
     p = shrink (kappa_of u q) x /\ 0 < kappa_of u q /\ arr_l1norm p == q) /\
  (q < arr_l1norm x -> argmax (flags_of u q) = 0%nat ->
     K_of u q = length x /\
     kappa_of u q == (arr_l1norm x - q) / inject_Z (Z.of_nat (length x)) /\
     (0 < q -> all_zero p = false)) /\
  (q == 0 -> all_zero p = true).
Proof.
  intros Hq p u.
  assert (Hfeas : arr_l1norm p <= q) by apply project_to_l1_ball_feasible, Hq.
  assert (Hout : q < arr_l1norm x ->
            p = shrink (kappa_of u q) x /\ 0 < kappa_of u q /\ arr_l1norm p == q).
  { intro Hx. subst p. rewrite project_to_l1_ball_invalid by exact Hx.
    repeat split.
    - apply kappa_of_pos; assumption.
    - apply _project_to_l1_ball_norm; assumption. }
  split; [exact Hfeas |]. split; [| split; [exact Hout | split]].
  - intros z Hlen Hz.
    destruct (Qlt_le_dec q (arr_l1norm x)) as [Hx | Hx].
    + destruct (Hout Hx) as (Hp & Hk & Hn). rewrite Hp in *.
      pose proof (shrink_nearest (kappa_of u q) x z (Qlt_le_weak _ _ Hk) Hlen).
      assert (0 <= kappa_of u q * (arr_l1norm (shrink (kappa_of u q) x) - arr_l1norm z))
        by (apply Qmult_le_0_compat; lra).
      lra.
    + subst p. rewrite project_to_l1_ball_valid by exact Hx.
      rewrite sqdist_self. apply sqdist_nonneg.
  - intros Hx Harg.
    assert (Hn : (0 < length x)%nat).
    { destruct x; [| simpl; lia]. change (arr_l1norm []) with 0 in Hx. lra. }
    assert (HK : K_of u q = length x).
    { unfold K_of. rewrite Harg. simpl. rewrite flags_of_length.
      apply sorted_magnitudes_length. }
    split; [exact HK |]. split; [apply kappa_of_fallback; assumption |].
    intro Hpos. destruct (Hout Hx) as (_ & _ & Hnorm).
    destruct (all_zero p) eqn:E; [| reflexivity].
    apply all_zero_norm in E. lra.
  - intro H0. apply norm_zero_all_zero. lra.
Qed.

(** C8: a point of the ball is returned as it is, so that projecting
    twice is projecting once. *)
Theorem project_to_l1_ball_noop (x : vec) (q : Q) :
  arr_l1norm x <= q ->
  project_to_l1_ball x q = x /\
  project_to_l1_ball (project_to_l1_ball x q) q = project_to_l1_ball x q.
Proof.
  intro H. rewrite !(project_to_l1_ball_valid x q H). split; reflexivity.
Qed.

(** C3 (the code departs from it): from [x = 0] with [g = -1],
    [f_max = 1/2], [gamma = 10^-4] and the step [1.9999], the first
    candidate has a negative [gtd] and fails the Armijo test, the cap is
    far, and yet the search stops there: the initial state carries
    [f_lim = f_max] instead of the Armijo bound, and the candidate is
    below [f_max]. *)
Theorem curvy_line_search_first_candidate :
  LS.n_iters search_short = 1%Z /\
  LS.gtd search_short < 0 /\
  ~ LS.f_val search_short
    < (1 # 2) + (1 # 10000) * LS.alpha search_short * LS.gtd search_short /\
  LS.f_lim search_short = 1 # 2 /\
  LS.f_val search_short < 1 # 2.
Proof.
  repeat split; try (vm_compute; reflexivity).
  vm_compute. discriminate.
Qed.

(** C4 (the code departs from it): no function of the module reads
    [max_matvec], so the solvers return the same thing for every budget;
    with a budget of one operator application, [solve_bpic_from] on
    [A = 1], [b = 1], [sigma = 0], [x0 = 3] goes through its
    initialisation and two more iterations. *)
Theorem max_matvec_not_enforced :
  (forall sqrt push ge A b tau x0 options mm,
     solve_lasso_from sqrt push ge A b tau x0 (with_max_matvec mm options)
     = solve_lasso_from sqrt push ge A b tau x0 options) /\
  (forall sqrt push A b sigma x0 options mm,
     solve_bpic_from sqrt push A b sigma x0 (with_max_matvec mm options)
     = solve_bpic_from sqrt push A b sigma x0 options) /\
  BP.iterations
    (solve_bpic_from Qsqrt push_left A1 [1] 0 [3]
       (with_max_matvec (Some 1%Z) default_options)) = 3%Z.
Proof.
  repeat split.
Qed.

(** * Concrete instances *)

(** C2, refuted as stated, three times.  The search with the step
    [alpha_max = 10^5] halves it nine times, reaches the cap of 10
    candidates with [alpha = 10^5 / 512], and returns a negative [gtd]
    with an objective value far above [f_max = 1/2].  With [gamma = -1]
    the second candidate is accepted below the bound
    [f_lim = f_max + 4] with the objective value [1/2 = f_max].  With the
    step [alpha0 = -1] the second candidate is accepted below the bound
    [f_lim = f_max + 1/1250] with the objective value [0 = f_max]. *)
Lemma curvy_line_search_cap_counterexample :
  ~ (LS.gtd search_long < 0 -> LS.f_val search_long < 1 # 2) /\
  ~ (LS.gtd search_neg_gamma < 0 -> LS.f_val search_neg_gamma < 1 # 2) /\
  ~ (LS.gtd search_neg_alpha < 0 -> LS.f_val search_neg_alpha < 0).
Proof.
  assert (G1 : LS.gtd search_long < 0) by (vm_compute; reflexivity).
  assert (F1 : ~ LS.f_val search_long < 1 # 2) by (vm_compute; discriminate).
  assert (G2 : LS.gtd search_neg_gamma < 0) by (vm_compute; reflexivity).
  assert (F2 : ~ LS.f_val search_neg_gamma < 1 # 2)
    by (vm_compute; discriminate).
  assert (G3 : LS.gtd search_neg_alpha < 0) by (vm_compute; reflexivity).
  assert (F3 : ~ LS.f_val search_neg_alpha < 0) by (vm_compute; discriminate).
  repeat split; intro H; [exact (F1 (H G1)) | exact (F2 (H G2)) |
                          exact (F3 (H G3))].
Qed.

(** The search [search_cap] is accepted at the cap: its tenth candidate
    passes the test of the loop. *)
Lemma curvy_line_search_descent_witness :
  LS.n_iters search_cap = 10%Z /\ LS.f_val search_cap < 1 # 2.
Proof.
  split; [vm_compute; reflexivity |].
  apply curvy_line_search_descent.
  - vm_compute. reflexivity.
  - right. vm_compute. reflexivity.
  - right. vm_compute. discriminate.
Defined.

Lemma project_to_l1_ball_nearest_witness :
  arr_l1norm (project_to_l1_ball [3; -1; 2] 2) <= 2.
Proof.
  refine (proj1 (project_to_l1_ball_nearest [3; -1; 2] 2 _)).
  unfold Qle. simpl. lia.
Defined.

Lemma project_to_l1_ball_noop_witness :
  project_to_l1_ball [1 # 2; - (1 # 4)] 1 = [1 # 2; - (1 # 4)].
Proof.
  apply (project_to_l1_ball_noop [1 # 2; - (1 # 4)] 1).
  vm_compute. discriminate.
Defined.


(** C9, refuted as stated: with [alpha_min = -2 <= alpha_max = -1] the
    first BPIC iteration on [A = 1], [b = 1], [sigma = 0], [x0 = 3] sets
    a negative next step. *)
Lemma spectral_step_negative :
  ~ (alpha_min negative_step_options <= alpha_max negative_step_options ->
     0 <= BP.alpha_next
            (bpic_body_func Qsqrt push_left A1 [1] 0 negative_step_options
               (bpic_init Qsqrt A1 [1] 0 [3] negative_step_options))).
Proof.
  assert (H0 : alpha_min negative_step_options <= alpha_max negative_step_options)
    by (unfold Qle; simpl; lia).
  assert (F : BP.alpha_next
            (bpic_body_func Qsqrt push_left A1 [1] 0 negative_step_options
               (bpic_init Qsqrt A1 [1] 0 [3] negative_step_options)) < 0)
    by (vm_compute; reflexivity).
  intro H. specialize (H H0). apply Qle_not_lt in H. exact (H F).
Qed.

Lemma spectral_step_clamped_witness :
  alpha_min default_options <= Lasso.alpha_next lasso_st1
  /\ Lasso.alpha_next lasso_st1 <= alpha_max default_options.
Proof.
  destruct (spectral_step_clamped Qsqrt push_left ge1 A1 [1] 1 0
              default_options lasso_st0 lasso_st1
              (bpic_init Qsqrt A1 [1] 0 [0] default_options))
    as (E & _ & _ & _ & Hb & _).
  - unfold Qle. simpl. lia.
  - vm_compute. reflexivity.
  - rewrite E. apply Hb.
Defined.

Lemma counters_constant_witness :
  Lasso.n_times lasso_final = 2%Z /\ Lasso.n_trans lasso_final = 2%Z.
Proof.
  destruct (counters_constant Qsqrt push_left ge1 A1 [1] 1 0 [0]
              default_options lasso_final)
    as (H1 & H2 & _).
  - vm_compute. reflexivity.
  - split; assumption.
Defined.


(** * Further properties of the module *)

(** ** Norms *)

Lemma fold_left_Qmax_init (l : vec) : forall a : Q, a <= fold_left Qmax l a.
Proof.
  induction l as [| c l IH]; intro a; simpl; [lra |].
  pose proof (IH (Qmax a c)) as H. revert H. split_minmax; lra.
Qed.

Lemma fold_left_Qmax_In (l : vec) : forall a c : Q,
  In c l -> c <= fold_left Qmax l a.
Proof.
  induction l as [| d l IH]; intros a c H; simpl in *; [contradiction |].
  destruct H as [-> | H]; [| apply IH, H].
  pose proof (fold_left_Qmax_init l (Qmax a c)) as Hi. revert Hi.
  split_minmax; lra.
Qed.

Lemma vmax_In (l : vec) (c : Q) : In c l -> c <= vmax l.
Proof.
  destruct l as [| a l]; simpl; [contradiction |].
  intros [-> | H]; [apply fold_left_Qmax_init | apply fold_left_Qmax_In, H].
Qed.

Lemma norm_linf_In (x : vec) (c : Q) : In c x -> Qabs c <= norm_linf x.
Proof.
  intro H. apply vmax_In. unfold vabs. apply in_map, H.
Qed.

Lemma norm_linf_nonneg (x : vec) : 0 <= norm_linf x.
Proof.
  destruct x as [| a x]; [unfold norm_linf; simpl; lra |].
  pose proof (norm_linf_In (a :: x) a (or_introl eq_refl)).
  pose proof (Qabs_nonneg a). lra.
Qed.

Lemma Qabs_mult_le (a c M : Q) : Qabs c <= M -> Qabs (a * c) <= Qabs a * M.
Proof.
  intro H. rewrite Qabs_Qmult, !(Qmult_comm (Qabs a)).
  apply Qmult_le_compat_r; [exact H | apply Qabs_nonneg].
Qed.

Lemma dot_bound (M : Q) (x : vec) : forall y : vec,
  0 <= M -> Forall (fun c => Qabs c <= M) y ->
  Qabs (dot x y) <= arr_l1norm x * M.
Proof.
  unfold dot, vmul.
  induction x as [| a x IH]; intros [| c y] HM Hy; cbn [zip_with vsum].
  - rewrite Qabs_pos by lra. change (arr_l1norm []) with 0. lra.
  - rewrite Qabs_pos by lra. change (arr_l1norm []) with 0. lra.
  - rewrite Qabs_pos by lra.
    apply Qmult_le_0_compat; [apply arr_l1norm_nonneg | exact HM].
  - inversion Hy as [| ? ? Hc Hy']; subst.
    pose proof (IH y HM Hy') as H1.
    pose proof (Qabs_mult_le a c M Hc) as H2.
    pose proof (Qabs_triangle (a * c) (vsum (zip_with Qmult x y))) as H3.
    change (arr_l1norm (a :: x)) with (Qabs a + arr_l1norm x).
    lra.
Qed.

Lemma dot_le_norms (x y : vec) :
  Qabs (dot x y) <= arr_l1norm x * norm_linf y.
Proof.
  apply dot_bound; [apply norm_linf_nonneg |].
  apply Forall_forall. intros c Hc. apply norm_linf_In, Hc.
Qed.

(** X1: the primal and the dual norm are a dual pair (Hoelder):
    [|<x, y>| <= ||x||_1 ||y||_inf], whatever the lengths. *)
Theorem primal_dual_norms (x y : vec) :
  Qabs (dot x y) <= primal_norm x * dual_norm y.
Proof. apply dot_le_norms. Qed.

Lemma dot_weighted (x : vec) : forall y w : vec,
  length x = length w -> length y = length w ->
  Forall (fun c => ~ c == 0) w ->
  dot x y == dot (vmul x w) (zip_with Qdiv y w).
Proof.
  unfold dot, vmul.
  induction x as [| a x IH]; intros [| c y] [| d w] Hx Hy Hw;
    simpl in Hx, Hy; try lia; cbn [zip_with vsum]; [reflexivity |].
  inversion Hw as [| ? ? Hd Hw']; subst.
  rewrite (IH y w) by (try lia; assumption).
  field. exact Hd.
Qed.

(** X2: with weights that are not zero, the weighted l1 norm and the
    weighted l-infinity norm are a dual pair as well. *)
Theorem weighted_norms_dual (x y w : vec) :
  length x = length w -> length y = length w ->
  Forall (fun c => ~ c == 0) w ->
  Qabs (dot x y) <= weighted_primal_l1_norm x w * weighted_dual_linf_norm y w.
Proof.
  intros Hx Hy Hw. rewrite (dot_weighted x y w Hx Hy Hw).
  unfold weighted_primal_l1_norm, weighted_dual_linf_norm, norm_l1.
  apply dot_bound; [apply norm_linf_nonneg |].
  apply Forall_forall. intros c Hc. apply norm_linf_In, Hc.
Qed.

(** ** The projector *)

Lemma shrink1_sign (kappa a : Q) :
  0 <= kappa ->
  let p := Qmax 0 (a - kappa) + Qmin 0 (a + kappa) in
  Qabs p <= Qabs a /\ 0 <= a * p.
Proof.
  intros H p. subst p. split.
  - split_minmax; lra.
  - pose proof (Qsq_nonneg a). split_minmax; nra.
Qed.

Lemma project_to_l1_ball_length (x : vec) (q : Q) :
  length (project_to_l1_ball x q) = length x.
Proof.
  unfold project_to_l1_ball, _project_to_l1_ball, shrink.
  destruct (Qltb q (arr_l1norm x)); [apply length_map | reflexivity].
Qed.

(** X4: the projection shrinks entry by entry: an entry of the result
    is never larger in magnitude than the entry of [x] it comes from, and
    never of the opposite sign; the l1 norm does not grow. *)
Theorem project_to_l1_ball_shrinks (x : vec) (q : Q) :
  0 <= q ->
  Forall2 (fun xi pi => Qabs pi <= Qabs xi /\ 0 <= xi * pi)
    x (project_to_l1_ball x q) /\
  arr_l1norm (project_to_l1_ball x q) <= arr_l1norm x.
Proof.
  intro Hq. destruct (Qlt_le_dec q (arr_l1norm x)) as [H | H].
  - rewrite project_to_l1_ball_invalid by exact H.
    pose proof (kappa_of_pos x q Hq H) as Hk.
    split.
    + unfold _project_to_l1_ball, shrink.
      induction x as [| a x' _]; [constructor |].
      set (kappa := kappa_of _ q) in *. clearbody kappa. clear H.
      induction (a :: x') as [| c l IH]; cbn [map]; constructor.
      * apply shrink1_sign. lra.
      * exact IH.
    + rewrite _project_to_l1_ball_norm by assumption. lra.
  - rewrite project_to_l1_ball_valid by exact H. split; [| lra].
    clear H. induction x as [| a x IH]; constructor; [| exact IH].
    split; [lra | apply Qsq_nonneg].
Qed.

Lemma zip_add_sub (p : vec) : forall b : vec,
  length p = length b ->
  Forall2 Qeq (vsub (vadd p b) b) p.
Proof.
  unfold vsub, vadd.
  induction p as [| a p IH]; intros [| c b] H; simpl in H; try lia;
    cbn [zip_with]; constructor; [ring | apply IH; lia].
Qed.

Lemma zip_sub_add (x : vec) : forall b : vec,
  length x = length b ->
  Forall2 Qeq (vadd (vsub x b) b) x.
Proof.
  unfold vsub, vadd.
  induction x as [| a x IH]; intros [| c b] H; simpl in H; try lia;
    cbn [zip_with]; constructor; [ring | apply IH; lia].
Qed.

Lemma arr_l1norm_Qeq (u v : vec) :
  Forall2 Qeq u v -> arr_l1norm u == arr_l1norm v.
Proof.
  unfold arr_l1norm, vabs.
  induction 1 as [| a c u v Hac _ IH]; cbn [map vsum]; [reflexivity |].
  rewrite IH, Hac. reflexivity.
Qed.

Lemma zip_with_length (f : Q -> Q -> Q) (x : vec) : forall y : vec,
  length x = length y -> length (zip_with f x y) = length x.
Proof.
  induction x as [| a x IH]; intros [| c y] H; simpl in *; try lia.
  rewrite IH; lia.
Qed.

(** X5: the projection around a centre [b] of the same length as [x]
    stays within [q] of the centre in l1 norm, and gives back [x], entry
    by entry, when [x] is already that near. *)
Theorem project_to_l1_ball_at_centre (x b : vec) (q : Q) :
  0 <= q -> length x = length b ->
  arr_l1norm (vsub (project_to_l1_ball_at x b q) b) <= q /\
  (arr_l1norm (vsub x b) <= q ->
     Forall2 Qeq (project_to_l1_ball_at x b q) x).
Proof.
  intros Hq Hlen. unfold project_to_l1_ball_at. split.
  - rewrite (arr_l1norm_Qeq _ (project_to_l1_ball (vsub x b) q)).
    + apply project_to_l1_ball_feasible, Hq.
    + apply zip_add_sub. rewrite project_to_l1_ball_length.
      unfold vsub. rewrite zip_with_length; lia.
  - intro H. rewrite project_to_l1_ball_valid by exact H.
    apply zip_sub_add, Hlen.
Qed.

(** ** The duality gap *)

Lemma dot_comm (x : vec) : forall y : vec, dot x y == dot y x.
Proof.
  unfold dot, vmul.
  induction x as [| a x IH]; intros [| c y]; cbn [zip_with vsum];
    try reflexivity.
  rewrite (IH y). ring.
Qed.

Lemma dot_vneg_r (x : vec) : forall v : vec, dot x (vneg v) == - dot x v.
Proof.
  unfold dot, vmul, vneg.
  induction x as [| a x IH]; intros [| c v]; cbn [map zip_with vsum];
    try reflexivity.
  rewrite (IH v). ring.
Qed.

(** [<r, r - b> = - <A x, r>] for the residual [r = b - A x]. *)
Lemma dot_residual (b : vec) : forall ax : vec,
  length ax = length b ->
  dot (vsub b ax) (vsub (vsub b ax) b) == - dot ax (vsub b ax).
Proof.
  unfold dot, vmul, vsub.
  induction b as [| c b IH]; intros [| a ax] H; simpl in H; try lia;
    cbn [zip_with vsum]; [reflexivity |].
  rewrite (IH ax) by lia. ring.
Qed.

Lemma Qdiv_max1_nonneg (a f : Q) : 0 <= a -> 0 <= a / Qmax 1 f.
Proof.
  intro H. apply Qle_shift_div_l; split_minmax; lra.
Qed.

(** X6: for a point of the ball, its residual [r = b - A x] and gradient
    [g = -A^T r], and an operator whose [trans] is the adjoint of [times]
    at that point, the gap [<r, r - b> + tau ||g||_inf] that
    [bpic_metrics] forms is not negative, so that the relative gap is the
    gap itself over [max(1, f)]; the three relative measures it returns
    are never negative. *)
Theorem bpic_metrics_gap_nonneg (sqrt : Q -> Q) (A : LinearOperator)
  (b x : vec) (f sigma tau : Q) :
  let r := vsub b (times A x) in
  let g := vneg (trans A r) in
  length (times A x) = length b ->
  dot (times A x) r == dot x (trans A r) ->
  arr_l1norm x <= tau ->
  let '(g_dnorm, _, r_gap, r_res_error, r_f_error) :=
    bpic_metrics sqrt b x g r f sigma tau in
  0 <= dot r (vsub r b) + tau * g_dnorm /\
  r_gap == (dot r (vsub r b) + tau * g_dnorm) / Qmax 1 f /\
  0 <= r_gap /\ 0 <= r_res_error /\ 0 <= r_f_error.
Proof.
  intros r g Hlen Hadj Hx. unfold bpic_metrics.
  assert (Hgap : 0 <= dot r (vsub r b) + tau * dual_norm g).
  { subst r. rewrite (dot_residual b (times A x) Hlen), Hadj.
    pose proof (dot_le_norms x g) as Hh. fold (dual_norm g) in Hh.
    subst g. rewrite dot_vneg_r in Hh.
    set (gn := dual_norm (vneg (trans A (vsub b (times A x))))) in *.
    assert (0 <= gn) by apply norm_linf_nonneg.
    assert (0 <= (tau - arr_l1norm x) * gn)
      by (apply Qmult_le_0_compat; lra).
    revert Hh. split_minmax; lra. }
  repeat split.
  - exact Hgap.
  - rewrite (Qabs_pos _ Hgap). reflexivity.
  - apply Qdiv_max1_nonneg, Qabs_nonneg.
  - apply Qle_shift_div_l; [split_minmax; lra |].
    pose proof (Qabs_nonneg (norm sqrt r - sigma)). lra.
  - apply Qdiv_max1_nonneg, Qabs_nonneg.
Qed.

(** ** More on the line search *)

Section LineSearchCandidates.

Variable sqrt : Q -> Q.
Variables (A : LinearOperator) (b x g : vec) (alpha0 f_max : Q).
Variables (proj : vec -> Q -> vec) (tau gamma : Q).

Local Notation "'next_func'" :=
  (ls_next_func sqrt A b x g f_max proj tau gamma).
Local Notation "'search'" :=
  (curvy_line_search sqrt A b x g alpha0 f_max proj tau gamma).

Lemma ls_next_func_n_safe (st : LS.t) :
  LS.n_safe (next_func st) = LS.n_safe st \/
  LS.n_safe (next_func st) = (LS.n_safe st + 1)%Z.
Proof.
  unfold ls_next_func.
  destruct (Qle_bool _ _); [right | left]; reflexivity.
Qed.

Lemma ls_next_func_candidate (st : LS.t) :
  LS.d_new (next_func st) = vsub (LS.x_new (next_func st)) x /\
  LS.gtd (next_func st)
  = LS.scale (next_func st) * dot g (LS.d_new (next_func st)).
Proof.
  unfold ls_next_func.
  destruct (Qle_bool _ _); split; reflexivity.
Qed.

Lemma obj_val_nonneg (r : vec) : 0 <= obj_val r.
Proof.
  unfold obj_val. pose proof (dot_self_nonneg r). lra.
Qed.

Lemma ls_counters :
  (1 <= LS.n_iters search <= 10)%Z /\
  LS.alpha search * inject_Z (2 ^ (LS.n_iters search - 1)) == alpha0 /\
  (0 <= LS.n_safe search < LS.n_iters search)%Z.
Proof.
  unfold curvy_line_search.
  apply (while_loop_inv (fun st =>
    (1 <= LS.n_iters st <= 10)%Z /\
    LS.alpha st * inject_Z (2 ^ (LS.n_iters st - 1)) == alpha0 /\
    (0 <= LS.n_safe st < LS.n_iters st)%Z)).
  - intros st (Hn & Ha & Hs) Hc.
    apply (ls_cond_func_true sqrt A b x g alpha0 f_max proj tau gamma) in Hc.
    rewrite (ls_next_func_n_iters sqrt A b x g f_max proj tau gamma st),
      (ls_next_func_alpha sqrt A b x g f_max proj tau gamma st).
    split; [lia |]. split.
    + replace (LS.n_iters st + 1 - 1)%Z with (Z.succ (LS.n_iters st - 1)) by lia.
      rewrite Z.pow_succ_r by lia. rewrite inject_Z_mult.
      change (inject_Z 2) with 2. rewrite <- Ha. field.
    + destruct (ls_next_func_n_safe st) as [E | E]; rewrite E; lia.
  - cbn. split; [lia |]. split; [ring | lia].
Qed.

(** X7: the search tries between 1 and 10 candidates, halving the step
    each time, so that the returned [alpha] is [alpha0 / 2^(n_iters - 1)];
    the safeguard fires at most once per halving. *)
Theorem curvy_line_search_counters :
  (1 <= LS.n_iters search <= 10)%Z /\
  LS.alpha search * inject_Z (2 ^ (LS.n_iters search - 1)) == alpha0 /\
  (0 <= LS.n_safe search < LS.n_iters search)%Z.
Proof. exact ls_counters. Qed.

(** X8: the state the search returns describes one candidate: its
    point comes out of the projector, its residual, direction,
    directional derivative and objective value are those of that point,
    and the objective value is not negative. *)
Theorem curvy_line_search_candidate :
  (exists v : vec, LS.x_new search = proj v tau) /\
  LS.r_new search = vsub b (times A (LS.x_new search)) /\
  LS.d_new search = vsub (LS.x_new search) x /\
  LS.gtd search = LS.scale search * dot g (LS.d_new search) /\
  LS.f_val search = obj_val (LS.r_new search) /\
  0 <= LS.f_val search.
Proof.
  pose proof (curvy_line_search_x_new sqrt A b x g alpha0 f_max proj tau gamma)
    as Hx.
  pose proof (curvy_line_search_consistent sqrt A b x g alpha0 f_max proj tau
                gamma) as [Hr Hf].
  assert (Hd : LS.d_new search = vsub (LS.x_new search) x /\
               LS.gtd search = LS.scale search * dot g (LS.d_new search)).
  { unfold curvy_line_search.
    apply (while_loop_inv (fun st =>
      LS.d_new st = vsub (LS.x_new st) x /\
      LS.gtd st = LS.scale st * dot g (LS.d_new st))).
    - intros st _ _. apply ls_next_func_candidate.
    - split; reflexivity. }
  destruct Hd as [Hd Hg].
  repeat split; try assumption.
  rewrite Hf. apply obj_val_nonneg.
Qed.

(** X9: when the search returns, the cap of 10 candidates is reached,
    or [gtd >= 0], or the objective value is below the bound of the
    state; that bound is [f_max] for the first candidate and
    [f_max + gamma alpha gtd] for every later one. *)
Theorem curvy_line_search_acceptance :
  (LS.n_iters search = 10%Z \/ 0 <= LS.gtd search \/
   LS.f_val search < LS.f_lim search) /\
  (LS.n_iters search = 1%Z -> LS.f_lim search = f_max) /\
  (LS.n_iters search <> 1%Z ->
   LS.f_lim search = f_max + gamma * LS.alpha search * LS.gtd search).
Proof.
  pose proof (curvy_line_search_exit sqrt A b x g alpha0 f_max proj tau gamma)
    as He.
  pose proof (curvy_line_search_n_iters sqrt A b x g alpha0 f_max proj tau
                gamma) as Hn.
  apply (ls_cond_func_false sqrt A b x g alpha0 f_max proj tau gamma) in He.
  split; [destruct He as [He | [He | He]]; [left; lia | tauto | tauto] |].
  assert (Hl : (LS.n_iters search = 1%Z /\ LS.f_lim search = f_max) \/
               ((1 < LS.n_iters search)%Z /\
                LS.f_lim search
                = f_max + gamma * LS.alpha search * LS.gtd search)).
  { unfold curvy_line_search.
    apply (while_loop_inv (fun st =>
      (LS.n_iters st = 1%Z /\ LS.f_lim st = f_max) \/
      ((1 < LS.n_iters st)%Z /\
       LS.f_lim st = f_max + gamma * LS.alpha st * LS.gtd st))).
    - intros st H _. right. split.
      + rewrite (ls_next_func_n_iters sqrt A b x g f_max proj tau gamma st).
        destruct H as [[H _] | [H _]]; lia.
      + apply ls_next_func_f_lim.
    - left. split; reflexivity. }
  split; intro H; destruct Hl as [[H1 H2] | [H1 H2]]; try assumption; lia.
Qed.

End LineSearchCandidates.

(** ** More on the BPIC solver *)

Lemma while_loop_false {S : Type} (cond : S -> bool) (body : S -> S)
  (fuel : nat) (s : S) :
  cond s = false -> while_loop fuel cond body s = s.
Proof.
  intro H. destruct fuel; simpl; [| rewrite H]; reflexivity.
Qed.

Section BpicStates.

Variable sqrt : Q -> Q.
Variable cbuf_push_left : vec -> Q -> vec.
Variables (A : LinearOperator) (b : vec) (sigma : Q) (x0 : vec).
Variable options : SPGL1Options.

Local Notation "'init'" := (bpic_init sqrt A b sigma x0 options).
Local Notation "'body_func'" :=
  (bpic_body_func sqrt cbuf_push_left A b sigma options).
Local Notation "'solve'" :=
  (solve_bpic_from sqrt cbuf_push_left A b sigma x0 options).
Local Notation "'reachable'" :=
  (bpic_reachable sqrt cbuf_push_left A b sigma x0 options).
Local Notation "'lsearch_of' st" :=
  (curvy_line_search sqrt A b (BP.x st) (BP.g st) (BP.alpha_next st)
     (vmax (BP.f_past st)) project_to_l1_ball (BP.tau st) (gamma options))
  (at level 10, st at level 9).

Lemma bpic_init_counters :
  BP.iterations init = 1%Z /\ BP.n_newton init = 0%Z /\
  BP.n_ls_iters init = 0%Z /\
  BP.alpha init = BP.alpha_next init /\
  exists d : Q,
    BP.alpha_next init
    = clip_inv d (alpha_min options) (alpha_max options).
Proof.
  unfold bpic_init, update_xrgf, bpic_metrics. cbv beta iota zeta.
  repeat split. eexists. reflexivity.
Qed.

Lemma bpic_body_func_counters (st : BP.t) :
  BP.iterations (body_func st) = (BP.iterations st + 1)%Z /\
  BP.n_newton (body_func st) = BP.n_newton st /\
  BP.n_ls_iters (body_func st) = LS.n_iters (lsearch_of st) /\
  BP.alpha (body_func st) = LS.alpha (lsearch_of st).
Proof.
  unfold bpic_body_func, bpic_metrics, update_xrgf. cbv beta iota zeta.
  repeat match goal with
  | |- context [if ?c then _ else _] => destruct c
  end; repeat split.
Qed.

Lemma bpic_cond_func_iterations (st : BP.t) :
  bpic_cond_func sqrt b sigma options st = true ->
  (BP.iterations st < max_iters options)%Z.
Proof.
  unfold bpic_cond_func. intro H.
  apply andb_true_iff in H. destruct H as [_ H]. apply Z.ltb_lt, H.
Qed.

Lemma bpic_reachable_invariant (st : BP.t) :
  reachable st ->
  BP.r st = vsub b (times A (BP.x st)) /\
  BP.g st = vneg (trans A (BP.r st)) /\
  0 <= BP.tau st /\
  BP.n_newton st = 0%Z /\
  (1 <= BP.iterations st <= Z.max 1 (max_iters options))%Z /\
  (0 <= BP.n_ls_iters st <= 10)%Z.
Proof.
  intro H. induction H as [| st Hr (IHr & IHg & IHt & IHn & IHi & IHl) Hc].
  - destruct (bpic_init_spec sqrt A b sigma x0 options)
      as (_ & _ & Hr & Hg & _).
    destruct bpic_init_counters as (Hi & Hn & Hl & _).
    pose proof (bpic_reachable_feasible _ _ _ _ _ _ _ _
      (bpic_reach_init sqrt cbuf_push_left A b sigma x0 options)) as [_ Ht].
    rewrite Hi, Hn, Hl. repeat split; try assumption; lia.
  - destruct (bpic_body_func_spec sqrt cbuf_push_left A b sigma options st)
      as (_ & Hlt & Hge & _).
    destruct (bpic_body_func_counters st) as (Hi & Hn & Hl & _).
    pose proof (bpic_reachable_feasible _ _ _ _ _ _ _ _
      (bpic_reach_step _ _ _ _ _ _ _ st Hr Hc)) as [_ Ht].
    pose proof (curvy_line_search_n_iters sqrt A b (BP.x st) (BP.g st)
      (BP.alpha_next st) (vmax (BP.f_past st)) project_to_l1_ball
      (BP.tau st) (gamma options)) as Hls.
    apply bpic_cond_func_iterations in Hc.
    rewrite Hi, Hn, Hl.
    assert (Hrg : BP.r (body_func st) = vsub b (times A (BP.x (body_func st))) /\
                  BP.g (body_func st) = vneg (trans A (BP.r (body_func st)))).
    { destruct (Qlt_le_dec (BP.tau (body_func st)) (BP.tau st)) as [H | H].
      - destruct (Hlt H) as (_ & Hr' & Hg' & _). split; assumption.
      - destruct (Hge ltac:(lra)) as (Hx' & Hr' & Hg' & _).
        rewrite Hg', Hr', Hx'. split; [| reflexivity].
        apply (curvy_line_search_consistent sqrt A b (BP.x st) (BP.g st)
          (BP.alpha_next st) (vmax (BP.f_past st)) project_to_l1_ball
          (BP.tau st) (gamma options)). }
    destruct Hrg. repeat split; try assumption; lia.
Qed.

(** X10: in every state of a run of the BPIC loop whose Newton
    quotients all have a divisor that is not zero, the residual and the
    gradient are those of the iterate ([r = b - A x], [g = -A^T r]),
    [tau] is not negative, [n_newton] is still 0, the iteration count is
    between 1 and [max(1, max_iters)], and the last line search took at
    most 10 candidates. *)
Theorem bpic_state_invariant (st : BP.t) :
  bpic_reachable_defined sqrt cbuf_push_left A b sigma x0 options st ->
  BP.r st = vsub b (times A (BP.x st)) /\
  BP.g st = vneg (trans A (BP.r st)) /\
  0 <= BP.tau st /\
  BP.n_newton st = 0%Z /\
  (1 <= BP.iterations st <= Z.max 1 (max_iters options))%Z /\
  (0 <= BP.n_ls_iters st <= 10)%Z.
Proof.
  intro H. apply bpic_reachable_invariant.
  apply bpic_reachable_defined_reachable, H.
Qed.

(** X11: [solve_bpic_from] returns a state that fails the loop test,
    after at most [max(1, max_iters)] iterations counted from 1; with
    [max_iters <= 1] it returns the initial state. *)
Theorem solve_bpic_from_stops :
  bpic_cond_func sqrt b sigma options solve = false /\
  (1 <= BP.iterations solve <= Z.max 1 (max_iters options))%Z /\
  ((max_iters options <= 1)%Z -> solve = init).
Proof.
  split; [apply solve_bpic_from_exit |]. split.
  - apply bpic_reachable_invariant, solve_bpic_from_reachable.
  - intro H. unfold solve_bpic_from. apply while_loop_false.
    unfold bpic_cond_func. apply andb_false_iff. right.
    apply Z.ltb_ge. destruct bpic_init_counters as [-> _]. exact H.
Qed.

(** X12: for [alpha_min <= alpha_max] the step kept for the next
    iteration lies in [[alpha_min, alpha_max]] in every state of the BPIC
    loop, the initial one included; the step recorded for an iteration is
    the one it started from, halved once per extra line-search
    candidate. *)
Theorem bpic_step_sizes (st st1 : BP.t) :
  alpha_min options <= alpha_max options ->
  reachable st ->
  alpha_min options <= BP.alpha_next st <= alpha_max options /\
  BP.alpha (body_func st1)
  * inject_Z (2 ^ (BP.n_ls_iters (body_func st1) - 1))
  == BP.alpha_next st1.
Proof.
  intros Hle H. split.
  - destruct H as [| st _ _].
    + destruct bpic_init_counters as (_ & _ & _ & _ & d & ->).
      apply clip_inv_bounds, Hle.
    + destruct (bpic_body_func_spec sqrt cbuf_push_left A b sigma options st)
        as (_ & _ & _ & -> & _).
      apply (bb_step_bounds _ _ _ _ Hle).
  - destruct (bpic_body_func_counters st1) as (_ & _ & -> & ->).
    apply (ls_counters sqrt A b (BP.x st1) (BP.g st1)).
Qed.

End BpicStates.

(** ** More on the LASSO solver *)

Lemma lookup_Raise (name : string) (ge : namespace) (e : exn) :
  lookup name ge = Raise e -> e = NameError name.
Proof.
  induction ge as [| [n v] ge IH]; simpl; intro H.
  - injection H as <-. reflexivity.
  - destruct (String.eqb n name); [discriminate | apply IH, H].
Qed.

Lemma sub_val_VVec (r b' : vec) :
  length b' = length r -> sub_val r (VVec b') = Ok (vsub r b').
Proof.
  intro H. unfold sub_val.
  destruct b' as [| c [| c' b']].
  - simpl. destruct r; [reflexivity | discriminate].
  - destruct r as [| r0 [| r1 r]]; try discriminate. reflexivity.
  - rewrite H, Nat.eqb_refl. reflexivity.
Qed.

Lemma dot_val_vsub (r b' : vec) :
  length b' = length r -> dot_val r (vsub r b') = Ok (dot r (vsub r b')).
Proof.
  intro H. unfold dot_val, vsub.
  rewrite zip_with_length, Nat.eqb_refl by (symmetry; exact H). reflexivity.
Qed.

Section LassoStates.

Variable sqrt : Q -> Q.
Variable cbuf_push_left : vec -> Q -> vec.
Variable ge : namespace.
Variables (A : LinearOperator) (b : vec) (tau : Q) (x0 : vec).
Variable options : SPGL1Options.

Local Notation "'solve'" :=
  (solve_lasso_from sqrt cbuf_push_left ge A b tau x0 options).
Local Notation "'reachable'" :=
  (lasso_reachable sqrt cbuf_push_left ge A b tau x0 options).

(** X13: when the namespace does not bind [b], [lasso_metrics] raises
    [NameError: b] whatever it is given, and so does
    [solve_lasso_from]. *)
Theorem lasso_metrics_unbound_b (x g r : vec) (f : Q) (e : exn) :
  lookup "b" ge = Raise e ->
  lasso_metrics sqrt ge x g r f = Raise (NameError "b") /\
  solve = Raise (NameError "b").
Proof.
  intro H. pose proof (lookup_Raise _ _ _ H) as ->.
  assert (Hm : forall x g r f,
            lasso_metrics sqrt ge x g r f = Raise (NameError "b")).
  { intros. unfold lasso_metrics. rewrite H. reflexivity. }
  split; [apply Hm |].
  unfold solve_lasso_from, lasso_init. rewrite Hm. reflexivity.
Qed.

(** X14: when the namespace binds [b] to an array of the length of
    [r], [lasso_metrics] raises [NameError: tau] if [tau] is not bound,
    and with [tau] bound to a number it returns the residual norm and the
    relative gap formed from the [b] and [tau] of the namespace. *)
Theorem lasso_metrics_bound_b (x g r b' : vec) (f : Q) :
  lookup "b" ge = Ok (VVec b') -> length b' = length r ->
  (forall e, lookup "tau" ge = Raise e ->
     lasso_metrics sqrt ge x g r f = Raise (NameError "tau")) /\
  (forall t, lookup "tau" ge = Ok (VNum t) ->
     lasso_metrics sqrt ge x g r f
     = Ok (norm sqrt r,
           Qabs (dot r (vsub r b') + t * dual_norm g) / Qmax 1 f)).
Proof.
  intros Hb Hlen. unfold lasso_metrics.
  rewrite Hb. cbn [bind]. rewrite (sub_val_VVec r b' Hlen). cbn [bind].
  rewrite (dot_val_vsub r b' Hlen). cbn [bind].
  split.
  - intros e He. pose proof (lookup_Raise _ _ _ He) as ->.
    rewrite He. reflexivity.
  - intros t Ht. rewrite Ht. reflexivity.
Qed.

Lemma lasso_metrics_Ok (x g r : vec) (f rn rg : Q) :
  lasso_metrics sqrt ge x g r f = Ok (rn, rg) ->
  rn = norm sqrt r /\ 0 <= rg.
Proof.
  unfold lasso_metrics. intro H.
  destruct (lookup "b" ge) as [vb |]; cbn [bind] in H; [| discriminate].
  destruct (sub_val r vb) as [d |]; cbn [bind] in H; [| discriminate].
  destruct (dot_val r d) as [rd |]; cbn [bind] in H; [| discriminate].
  destruct (lookup "tau" ge) as [vt |]; cbn [bind] in H; [| discriminate].
  destruct (mul_val vt (dual_norm g)) as [tg |]; cbn [bind] in H;
    [| discriminate].
  assert (Hpos : 0 <= Qabs (rd + tg) / Qmax 1 f)
    by apply Qdiv_max1_nonneg, Qabs_nonneg.
  injection H as H1 H2. split; [symmetry; exact H1 |].
  rewrite <- H2. exact Hpos.
Qed.

Lemma lasso_reachable_invariant (st : Lasso.t) :
  reachable st ->
  Lasso.r st = vsub b (times A (Lasso.x st)) /\
  Lasso.g st = vneg (trans A (Lasso.r st)) /\
  Lasso.r_norm st = norm sqrt (Lasso.r st) /\
  0 <= Lasso.r_gap st /\
  Lasso.n_newton st = 0%Z /\
  (1 <= Lasso.iterations st <= Z.max 1 (max_iters options))%Z.
Proof.
  intro H. induction H as [st H | st st' _ (_ & _ & _ & _ & IHn & IHi) Hc H].
  - unfold lasso_init in H.
    destruct (lasso_metrics _ _ _ _ _ _) as [[rn rg] | e] eqn:E;
      cbn [bind] in H; [| discriminate].
    apply lasso_metrics_Ok in E. destruct E as [-> Hg].
    injection H as <-. cbn. repeat split; try assumption; lia.
  - unfold lasso_cond_func in Hc. rewrite !andb_true_iff, Z.ltb_lt in Hc.
    unfold lasso_body_func in H.
    destruct (lasso_metrics _ _ _ _ _ _) as [[rn rg] | e] eqn:E;
      cbn [bind] in H; [| discriminate].
    apply lasso_metrics_Ok in E. destruct E as [-> Hg].
    injection H as <-. cbn. repeat split; try assumption; try lia.
    apply (curvy_line_search_consistent sqrt A b (Lasso.x st) (Lasso.g st)).
Qed.

(** X15: a state that [solve_lasso_from] returns fails the loop test;
    its residual, gradient and residual norm are those of its iterate,
    its relative gap is not negative, [n_newton] is 0 and the iteration
    count is between 1 and [max(1, max_iters)]. *)
Theorem solve_lasso_from_returns (st : Lasso.t) :
  solve = Ok st ->
  lasso_cond_func sqrt b options st = false /\
  Lasso.r st = vsub b (times A (Lasso.x st)) /\
  Lasso.g st = vneg (trans A (Lasso.r st)) /\
  Lasso.r_norm st = norm sqrt (Lasso.r st) /\
  0 <= Lasso.r_gap st /\
  Lasso.n_newton st = 0%Z /\
  (1 <= Lasso.iterations st <= Z.max 1 (max_iters options))%Z.
Proof.
  intro H. split; [eapply solve_lasso_from_exit; exact H |].
  apply lasso_reachable_invariant.
  eapply solve_lasso_from_reachable. exact H.
Qed.

End LassoStates.

(** ** Re-synchronisation *)

(** X16: [update_xrgf] returns a point of the ball (for [tau >= 0])
    with the residual, gradient and objective value that [compute_rgf]
    gives for that point, and it leaves a point of the ball where it
    is. *)
Theorem update_xrgf_resync (A : LinearOperator) (b x : vec) (tau : Q) :
  0 <= tau ->
  let '(x', r, g, f) := update_xrgf A b x tau in
  arr_l1norm x' <= tau /\
  compute_rgf A b x' = (r, g, f) /\
  0 <= f /\
  (arr_l1norm x <= tau -> x' = x).
Proof.
  intro H. unfold update_xrgf, compute_rgf.
  repeat split.
  - apply project_to_l1_ball_feasible, H.
  - apply obj_val_nonneg.
  - apply project_to_l1_ball_valid.
Qed.

(** ** The Newton correction of [tau] *)

Lemma Qmax_Qeq (a a' c c' : Q) :
  a == a' -> c == c' -> Qmax a c == Qmax a' c'.
Proof. intros Ha Hc. split_minmax; lra. Qed.

Lemma fold_left_Qmax_Qeq (l l' : vec) :
  Forall2 Qeq l l' ->
  forall a a' : Q, a == a' -> fold_left Qmax l a == fold_left Qmax l' a'.
Proof.
  induction 1 as [| c c' l l' Hc _ IH]; intros a a' Ha; simpl; [exact Ha |].
  apply IH, Qmax_Qeq; assumption.
Qed.

Lemma vmax_Qeq (l l' : vec) : Forall2 Qeq l l' -> vmax l == vmax l'.
Proof.
  intros [| c c' l0 l0' Hc H]; simpl; [reflexivity |].
  apply fold_left_Qmax_Qeq; assumption.
Qed.

Lemma norm_linf_Qeq (u v : vec) :
  Forall2 Qeq u v -> norm_linf u == norm_linf v.
Proof.
  intro H. apply vmax_Qeq. unfold vabs.
  induction H as [| a c u v Hac _ IH]; simpl; constructor;
    [rewrite Hac; reflexivity | exact IH].
Qed.

Lemma norm_linf_vneg (v : vec) : norm_linf (vneg v) == norm_linf v.
Proof.
  apply vmax_Qeq. unfold vabs, vneg.
  induction v as [| c v IH]; simpl; constructor; [apply Qabs_opp | exact IH].
Qed.

Lemma Qdiv_le_iff (a c k : Q) : 0 < k -> (a / k <= c / k <-> a <= c).
Proof.
  intro Hk. unfold Qdiv. apply Qmult_le_r, Qinv_lt_0_compat, Hk.
Qed.

Lemma Qmax_div (a c k : Q) :
  0 < k -> Qmax (a / k) (c / k) == Qmax a c / k.
Proof.
  intro Hk. destruct (Qlt_le_dec a c) as [H | H].
  - rewrite (Q.max_r a c) by lra.
    apply Q.max_r. apply Qdiv_le_iff; [exact Hk | lra].
  - rewrite (Q.max_l a c) by exact H.
    apply Q.max_l. apply Qdiv_le_iff; assumption.
Qed.

Lemma fold_left_Qmax_div (k : Q) (l : vec) :
  0 < k ->
  forall a : Q,
    fold_left Qmax (map (fun u => u / k) l) (a / k)
    == fold_left Qmax l a / k.
Proof.
  intro Hk. induction l as [| c l IH]; intro a; simpl; [reflexivity |].
  rewrite <- IH. apply fold_left_Qmax_Qeq.
  - clear. induction (map (fun u => u / k) l); constructor;
      [reflexivity | assumption].
  - apply Qmax_div, Hk.
Qed.

Lemma norm_linf_div (k : Q) (v : vec) :
  0 < k -> norm_linf (map (fun gi => gi / k) v) == norm_linf v / k.
Proof.
  intro Hk. unfold norm_linf.
  rewrite (vmax_Qeq _ (map (fun u => u / k) (vabs v))).
  - destruct v as [| c v]; simpl; [reflexivity |].
    apply fold_left_Qmax_div, Hk.
  - unfold vabs. induction v as [| c v IH]; cbn [map]; constructor;
      [| exact IH].
    unfold Qdiv. rewrite Qabs_Qmult, Qabs_Qinv, (Qabs_pos k) by lra.
    reflexivity.
Qed.

(** X17: for [r_norm > 0] and an operator whose [trans] commutes with
    the division by [r_norm], [tau_change] is the Newton increment that
    [solve_bpic_from] adds to [tau]:
    [r_norm (r_norm - sigma) / ||g||_inf] with [g = -A^T r]. *)
Theorem tau_change_newton (A : LinearOperator) (r : vec) (r_norm sigma : Q) :
  0 < r_norm ->
  Forall2 Qeq (trans A (map (fun ri => ri / r_norm) r))
              (map (fun gi => gi / r_norm) (trans A r)) ->
  ~ norm_linf (trans A r) == 0 ->
  tau_change A r r_norm sigma
  == (r_norm * (r_norm - sigma)) / dual_norm (vneg (trans A r)).
Proof.
  intros Hr Hhom Hn. unfold tau_change, dual_norm.
  rewrite (norm_linf_Qeq _ _ Hhom), (norm_linf_div _ _ Hr), norm_linf_vneg.
  field. split; [exact Hn | lra].
Qed.

(** ** Wavelet filter banks *)

Lemma negate_length (g : vec) :
  length (negate_evens g) = length g /\ length (negate_odds g) = length g.
Proof.
  induction g as [| a g [IH1 IH2]]; simpl; split; congruence.
Qed.

Lemma negate_twice (g : vec) :
  negate_odds (negate_evens g) = vneg g /\
  negate_evens (negate_odds g) = vneg g.
Proof.
  induction g as [| a g [IH1 IH2]]; simpl; split; congruence.
Qed.

Lemma negate_app (l1 l2 : vec) :
  (Nat.even (length l1) = true ->
     negate_odds (l1 ++ l2) = negate_odds l1 ++ negate_odds l2 /\
     negate_evens (l1 ++ l2) = negate_evens l1 ++ negate_evens l2) /\
  (Nat.even (length l1) = false ->
     negate_odds (l1 ++ l2) = negate_odds l1 ++ negate_evens l2 /\
     negate_evens (l1 ++ l2) = negate_evens l1 ++ negate_odds l2).
Proof.
  induction l1 as [| a l1 [IHe IHo]].
  - split; intro H; [split; reflexivity | discriminate].
  - change (length (a :: l1)) with (S (length l1)).
    rewrite Nat.even_succ, <- Nat.negb_even.
    split; intro H.
    + apply negb_true_iff in H. destruct (IHo H) as [H1 H2].
      simpl. rewrite H1, H2. split; reflexivity.
    + apply negb_false_iff in H. destruct (IHe H) as [H1 H2].
      simpl. rewrite H1, H2. split; reflexivity.
Qed.

Lemma negate_rev (l : vec) :
  (Nat.even (length l) = true ->
     rev (negate_odds l) = negate_evens (rev l) /\
     rev (negate_evens l) = negate_odds (rev l)) /\
  (Nat.even (length l) = false ->
     rev (negate_odds l) = negate_odds (rev l) /\
     rev (negate_evens l) = negate_evens (rev l)).
Proof.
  induction l as [| a l [IHe IHo]].
  - split; intro H; [split; reflexivity | discriminate].
  - change (length (a :: l)) with (S (length l)).
    rewrite Nat.even_succ, <- Nat.negb_even.
    split; intro H.
    + apply negb_true_iff in H. destruct (IHo H) as [H1 H2].
      assert (Hr : Nat.even (length (rev l)) = false)
        by (rewrite length_rev; exact H).
      destruct (proj2 (negate_app (rev l) [a]) Hr) as [H3 H4].
      simpl. rewrite H1, H2, H3, H4. split; reflexivity.
    + apply negb_false_iff in H. destruct (IHe H) as [H1 H2].
      assert (Hr : Nat.even (length (rev l)) = true)
        by (rewrite length_rev; exact H).
      destruct (proj1 (negate_app (rev l) [a]) Hr) as [H3 H4].
      simpl. rewrite H1, H2, H3, H4. split; reflexivity.
Qed.

Lemma dot_negate (l : vec) : forall m : vec,
  dot m (negate_evens l) == - dot m (negate_odds l).
Proof.
  unfold dot, vmul.
  induction l as [| a l IH]; intros [| c m]; cbn [negate_evens negate_odds
    zip_with vsum]; try reflexivity.
  destruct l as [| a' l]; destruct m as [| c' m];
    cbn [negate_evens negate_odds zip_with vsum]; try ring.
  specialize (IH (c' :: m)).
  cbn [negate_evens negate_odds zip_with vsum] in IH.
  lra.
Qed.

Lemma dot_negate_swap (u : vec) : forall v : vec,
  dot u (negate_odds v) == dot (negate_odds u) v /\
  dot u (negate_evens v) == dot (negate_evens u) v.
Proof.
  unfold dot, vmul.
  induction u as [| a u IH]; intros [| c v];
    cbn [negate_evens negate_odds zip_with vsum]; try (split; reflexivity).
  destruct (IH v) as [H1 H2]. split; [rewrite H2 | rewrite H1]; ring.
Qed.

Lemma dot_app (a1 : vec) : forall (b1 a2 b2 : vec),
  length a1 = length b1 ->
  dot (a1 ++ a2) (b1 ++ b2) == dot a1 b1 + dot a2 b2.
Proof.
  unfold dot, vmul.
  induction a1 as [| a a1 IH]; intros [| c b1] a2 b2 H; simpl in H; try lia.
  - cbn [app zip_with vsum]. ring.
  - cbn [app zip_with vsum]. rewrite IH by lia. ring.
Qed.

Lemma dot_rev (a : vec) : forall c : vec,
  length a = length c -> dot (rev a) (rev c) == dot a c.
Proof.
  induction a as [| x a IH]; intros [| y c] H; simpl in H; try lia;
    [reflexivity |].
  cbn [rev]. rewrite dot_app by (rewrite !length_rev; lia).
  rewrite IH by lia. unfold dot, vmul. cbn [zip_with vsum]. ring.
Qed.

Lemma qmf_length (h : vec) : length (qmf h) = length h.
Proof.
  unfold qmf. rewrite (proj2 (negate_length (rev h))). apply length_rev.
Qed.

Lemma qmf_dot (h : vec) :
  Nat.even (length h) = true -> dot h (qmf h) == 0.
Proof.
  intro He. unfold qmf.
  assert (Hr : Nat.even (length (rev h)) = true)
    by (rewrite length_rev; exact He).
  assert (E : dot h (negate_odds (rev h)) == - dot h (negate_odds (rev h))).
  { rewrite <- (dot_rev h (negate_odds (rev h))) at 1
      by (rewrite (proj2 (negate_length (rev h))), length_rev; reflexivity).
    rewrite (proj1 (proj1 (negate_rev (rev h)) Hr)), rev_involutive.
    rewrite dot_negate.
    rewrite (proj1 (dot_negate_swap (rev h) h)).
    rewrite dot_comm. reflexivity. }
  lra.
Qed.

Lemma rev_qmf (h : vec) :
  Nat.even (length h) = true -> rev (qmf h) = negate_evens h.
Proof.
  intro He. unfold qmf.
  assert (Hr : Nat.even (length (rev h)) = true)
    by (rewrite length_rev; exact He).
  rewrite (proj1 (proj1 (negate_rev (rev h)) Hr)). f_equal.
  apply rev_involutive.
Qed.

(** X18: the quadrature mirror filter of a filter of even length has
    the same length, is orthogonal to the filter, and its own mirror
    filter is the negated filter. *)
Theorem qmf_orthogonal (h : vec) :
  Nat.even (length h) = true ->
  length (qmf h) = length h /\
  dot h (qmf h) == 0 /\
  qmf (qmf h) = vneg h.
Proof.
  intro He. split; [apply qmf_length |]. split; [apply qmf_dot, He |].
  unfold qmf at 1. rewrite (rev_qmf h He). apply negate_twice.
Qed.

(** X19: for a low-pass filter of even length, [filter_bank_] returns
    four filters of that length; the high-pass filters are orthogonal to
    the low-pass ones, and they obey the relations the biorthogonal
    wavelets are built with: [rec_hi = negate_odds(dec_lo)] and
    [dec_hi = negate_evens(rec_lo)]. *)
Theorem filter_bank_orthogonal (rec_lo : vec) :
  Nat.even (length rec_lo) = true ->
  let '(dec_lo, dec_hi, rec_lo', rec_hi) := filter_bank_ rec_lo in
  rec_lo' = rec_lo /\
  length dec_lo = length rec_lo /\ length dec_hi = length rec_lo /\
  length rec_hi = length rec_lo /\
  dot rec_lo rec_hi == 0 /\ dot dec_lo dec_hi == 0 /\
  rec_hi = negate_odds dec_lo /\ dec_hi = negate_evens rec_lo.
Proof.
  intro He. unfold filter_bank_.
  repeat split.
  - apply length_rev.
  - rewrite length_rev. apply qmf_length.
  - apply qmf_length.
  - apply qmf_dot, He.
  - rewrite dot_rev by (rewrite qmf_length; reflexivity). apply qmf_dot, He.
  - apply rev_qmf, He.
Qed.

Lemma vsum_scaled (c t : Q) (l : vec) :
  ~ t == 0 -> vsum (map (fun a => c * a / t) l) == c * vsum l / t.
Proof.
  intro Ht. induction l as [| a l IH]; cbn [map vsum].
  - field. exact Ht.
  - rewrite IH. field. exact Ht.
Qed.

Lemma even_mod2 (n : nat) :
  negb (Nat.eqb (Nat.modulo n 2) 0) = negb (Nat.even n).
Proof.
  f_equal. destruct (Nat.even n) eqn:E.
  - apply Nat.eqb_eq. apply Nat.even_spec in E. destruct E as [k ->].
    rewrite Nat.mul_comm. apply Nat.Div0.mod_mul.
  - apply Nat.eqb_neq. intro H.
    apply Nat.Div0.mod_divides in H. destruct H as [k ->].
    rewrite Nat.even_mul in E. discriminate.
Qed.

(** X20: [orthogonal_filter_bank] raises [ValueError] for a scaling
    filter of odd length; for one of even length whose entries do not sum
    to zero it returns the filter bank of the normalised filter, whose
    entries sum to [sqrt2]. *)
Theorem orthogonal_filter_bank_spec (sqrt2 : Q) (scaling_filter : vec) :
  (Nat.even (length scaling_filter) = false ->
     orthogonal_filter_bank sqrt2 scaling_filter
     = inl (ValueError "scaling_filter must be of even length.")) /\
  (Nat.even (length scaling_filter) = true ->
     ~ vsum scaling_filter == 0 ->
     exists rec_lo : vec,
       orthogonal_filter_bank sqrt2 scaling_filter = inr (filter_bank_ rec_lo)
       /\ length rec_lo = length scaling_filter
       /\ vsum rec_lo == sqrt2).
Proof.
  unfold orthogonal_filter_bank. rewrite even_mod2. split; intro He.
  - rewrite He. reflexivity.
  - intro Hs. rewrite He. cbn [negb]. eexists. split; [reflexivity |].
    split; [apply length_map |].
    rewrite vsum_scaled by exact Hs. field. exact Hs.
Qed.

(** ** The ball of radius zero *)

(** X21: with [tau = 0] every state of the LASSO loop has the zero
    array as its iterate. *)
Theorem lasso_zero_radius (sqrt : Q -> Q) (cbuf_push_left : vec -> Q -> vec)
  (ge : namespace) (A : LinearOperator) (b : vec) (tau : Q) (x0 : vec)
  (options : SPGL1Options) (st : Lasso.t) :
  tau == 0 ->
  lasso_reachable sqrt cbuf_push_left ge A b tau x0 options st ->
  all_zero (Lasso.x st) = true.
Proof.
  intros Ht H. apply norm_zero_all_zero.
  pose proof (lasso_reachable_feasible sqrt cbuf_push_left ge A b tau x0
                options st) as Hf.
  cbv zeta in Hf. specialize (Hf ltac:(lra) H). lra.
Qed.

(** ** Modulation *)

Lemma minus_one_power_succ (k : Z) : (-1) ^ (k + 1) == - (-1) ^ k.
Proof.
  rewrite Qpower_plus by (intro H; discriminate H). 
  change ((-1) ^ 1) with (-1). ring.
Qed.

Lemma modulation_negate (h : vec) : forall lo : Z,
  ((-1) ^ lo == -1 ->
     Forall2 Qeq (vmul (map (fun k => (-1) ^ k) (int_arange lo (length h))) h)
                 (negate_evens h)) /\
  ((-1) ^ lo == 1 ->
     Forall2 Qeq (vmul (map (fun k => (-1) ^ k) (int_arange lo (length h))) h)
                 (negate_odds h)).
Proof.
  unfold vmul. induction h as [| a h IH]; intro lo.
  - split; intro; constructor.
  - destruct (IH (lo + 1)%Z) as [IH1 IH2].
    pose proof (minus_one_power_succ lo) as Hs.
    cbn [length int_arange map zip_with negate_evens negate_odds].
    split; intro H; constructor.
    + rewrite H. ring.
    + apply IH2. rewrite Hs, H. ring.
    + rewrite H. ring.
    + apply IH1. rewrite Hs, H. ring.
Qed.

Lemma Forall2_Qeq_trans (l1 l2 : vec) :
  Forall2 Qeq l1 l2 -> forall l3 : vec, Forall2 Qeq l2 l3 -> Forall2 Qeq l1 l3.
Proof.
  induction 1 as [| a c l1 l2 Hac _ IH]; intros l3 H; inversion H; subst;
    constructor; [lra | apply IH; assumption].
Qed.

(** X22: [mirror] changes the sign of the entries at the even indices:
    entry by entry it is [negate_evens], and mirroring twice gives the
    filter back. *)
Theorem mirror_negate_evens (h : vec) :
  Forall2 Qeq (mirror h) (negate_evens h) /\
  Forall2 Qeq (mirror (mirror h)) h.
Proof.
  assert (Hm : forall l, Forall2 Qeq (mirror l) (negate_evens l)).
  { intro l. unfold mirror. apply modulation_negate. reflexivity. }
  split; [apply Hm |].
  assert (Hn : forall l l', Forall2 Qeq l l' ->
            Forall2 Qeq (negate_evens l) (negate_evens l') /\
            Forall2 Qeq (negate_odds l) (negate_odds l')).
  { induction 1 as [| a c l l' Hac _ [IH1 IH2]]; cbn [negate_evens negate_odds];
      split; constructor; try assumption; rewrite Hac; reflexivity. }
  assert (Hd : forall l, Forall2 Qeq (negate_evens (negate_evens l)) l /\
                         Forall2 Qeq (negate_odds (negate_odds l)) l).
  { induction l as [| a l [IH1 IH2]]; cbn [negate_evens negate_odds];
      split; constructor; try assumption; ring. }
  eapply Forall2_Qeq_trans; [apply (Hm (mirror h)) |].
  eapply Forall2_Qeq_trans; [apply (proj1 (Hn _ _ (Hm h))) |].
  apply (proj1 (Hd h)).
Qed.

(** ** Instances of the further properties *)

Lemma weighted_norms_dual_witness :
  Qabs (dot [1; -2] [3; 1])
  <= weighted_primal_l1_norm [1; -2] [2; 4]
     * weighted_dual_linf_norm [3; 1] [2; 4].
Proof.
  apply weighted_norms_dual; [reflexivity | reflexivity |].
  repeat constructor; unfold Qeq; simpl; lia.
Defined.

Lemma project_to_l1_ball_shrinks_witness :
  arr_l1norm (project_to_l1_ball [3; -1; 2] 2) <= arr_l1norm [3; -1; 2].
Proof.
  refine (proj2 (project_to_l1_ball_shrinks [3; -1; 2] 2 _)).
  unfold Qle. simpl. lia.
Defined.

Lemma project_to_l1_ball_at_centre_witness :
  arr_l1norm (vsub (project_to_l1_ball_at [3; 1] [1; 1] 1) [1; 1]) <= 1.
Proof.
  refine (proj1 (project_to_l1_ball_at_centre [3; 1] [1; 1] 1 _ _)).
  - unfold Qle. simpl. lia.
  - reflexivity.
Defined.

Lemma bpic_metrics_gap_nonneg_witness :
  let r := vsub [1] (times A1 [0]) in
  let g := vneg (trans A1 r) in
  let '(g_dnorm, _, r_gap, r_res_error, r_f_error) :=
    bpic_metrics Qsqrt [1] [0] g r (1 # 2) 0 1 in
  0 <= dot r (vsub r [1]) + 1 * g_dnorm /\
  r_gap == (dot r (vsub r [1]) + 1 * g_dnorm) / Qmax 1 (1 # 2) /\
  0 <= r_gap /\ 0 <= r_res_error /\ 0 <= r_f_error.
Proof.
  refine (bpic_metrics_gap_nonneg Qsqrt A1 [1] [0] (1 # 2) 0 1 _ _ _).
  - reflexivity.
  - vm_compute. reflexivity.
  - vm_compute. discriminate.
Defined.

Lemma bpic_state_invariant_witness :
  BP.n_newton
    (bpic_body_func Qsqrt push_left A1 [1] 0 default_options
       (bpic_init Qsqrt A1 [1] 0 [3] default_options)) = 0%Z.
Proof.
  refine (proj1 (proj2 (proj2 (proj2
    (bpic_state_invariant Qsqrt push_left A1 [1] 0 [3] default_options _ _))))).
  assert (F : bpic_flag_c Qsqrt A1 [1] 0 default_options
               (bpic_init Qsqrt A1 [1] 0 [3] default_options) = false)
    by (vm_compute; reflexivity).
  apply bpic_defined_step.
  - apply bpic_defined_init. vm_compute. discriminate.
  - vm_compute. reflexivity.
  - unfold bpic_step_defined. rewrite F. intro E. discriminate E.
Defined.

Lemma bpic_step_sizes_witness :
  alpha_min default_options
  <= BP.alpha_next (bpic_init Qsqrt A1 [1] 0 [3] default_options)
  <= alpha_max default_options.
Proof.
  refine (proj1 (bpic_step_sizes Qsqrt push_left A1 [1] 0 [3] default_options
                   _ (bpic_init Qsqrt A1 [1] 0 [3] default_options) _ _)).
  - unfold Qle. simpl. lia.
  - apply bpic_reach_init.
Defined.

Lemma lasso_metrics_unbound_b_witness :
  lasso_metrics Qsqrt module_globals [0] [-1] [1] (1 # 2)
  = Raise (NameError "b") /\
  solve_lasso_from Qsqrt push_left module_globals A1 [1] 1 [0] default_options
  = Raise (NameError "b").
Proof.
  refine (lasso_metrics_unbound_b Qsqrt push_left module_globals A1 [1] 1 [0]
            default_options [0] [-1] [1] (1 # 2) (NameError "b") _).
  reflexivity.
Defined.

Lemma lasso_metrics_bound_b_witness :
  lasso_metrics Qsqrt ge1 [0] [-1] [1] (1 # 2)
  = Ok (norm Qsqrt [1],
        Qabs (dot [1] (vsub [1] [1]) + 1 * dual_norm [-1]) / Qmax 1 (1 # 2)).
Proof.
  refine (proj2 (lasso_metrics_bound_b Qsqrt ge1 [0] [-1] [1] [1] (1 # 2) _ _)
            1 _); reflexivity.
Defined.

Lemma solve_lasso_from_returns_witness :
  lasso_cond_func Qsqrt [1] default_options lasso_final = false.
Proof.
  refine (proj1 (solve_lasso_from_returns Qsqrt push_left ge1 A1 [1] 1 [0]
                   default_options lasso_final _)).
  vm_compute. reflexivity.
Defined.

Lemma update_xrgf_resync_witness :
  let '(x', r, g, f) := update_xrgf A1 [1] [3] 1 in
  arr_l1norm x' <= 1 /\
  compute_rgf A1 [1] x' = (r, g, f) /\
  0 <= f /\
  (arr_l1norm [3] <= 1 -> x' = [3]).
Proof.
  refine (update_xrgf_resync A1 [1] [3] 1 _).
  unfold Qle. simpl. lia.
Defined.

Lemma tau_change_newton_witness :
  tau_change A1 [2] 2 1 == (2 * (2 - 1)) / dual_norm (vneg (trans A1 [2])).
Proof.
  refine (tau_change_newton A1 [2] 2 1 _ _ _).
  - reflexivity.
  - repeat constructor.
  - vm_compute. discriminate.
Defined.

Lemma qmf_orthogonal_witness : dot [1; 2] (qmf [1; 2]) == 0.
Proof.
  refine (proj1 (proj2 (qmf_orthogonal [1; 2] _))). reflexivity.
Defined.

Lemma filter_bank_orthogonal_witness :
  let '(dec_lo, dec_hi, rec_lo', rec_hi) := filter_bank_ [1; 2] in
  rec_lo' = [1; 2] /\
  length dec_lo = length [1; 2] /\ length dec_hi = length [1; 2] /\
  length rec_hi = length [1; 2] /\
  dot [1; 2] rec_hi == 0 /\ dot dec_lo dec_hi == 0 /\
  rec_hi = negate_odds dec_lo /\ dec_hi = negate_evens [1; 2].
Proof.
  refine (filter_bank_orthogonal [1; 2] _). reflexivity.
Defined.

Lemma lasso_zero_radius_witness : all_zero (Lasso.x lasso_st_zero) = true.
Proof.
  refine (lasso_zero_radius Qsqrt push_left ge1 A1 [1] 0 [3] default_options
            lasso_st_zero _ _).
  - reflexivity.
  - apply lasso_reach_init. vm_compute. reflexivity.
Defined.
